(** * butanex: merging of Butane YAML documents (merge.go)

    A shallow embedding of [merge.go] and the properties of its three parts:
    the policy matcher ([buildPolicy], [addPolicy], [isOverwrite],
    [resolvePath]), the path resolver ([resolvePaths], [resolvePathsValue])
    and the document merger ([mergeMapping], [mergeBytes], [mergeFile],
    [MergeFiles]).

    Conventions of the embedding:
    - a decoded YAML document ([any] in Go) is the inductive type [value];
      [map[string]any] is an association list with unique keys whose list
      order is the order in which [range] visits the keys (Go leaves that
      order unspecified, so every statement holds for each such order);
    - Go's in-place mutation of maps is written as explicit state passing:
      a function that mutates its argument returns the mutated argument;
    - [error] values are a data type, one constructor per [fmt.Errorf] call;
      [panic] is a separate outcome;
    - functions of the libraries that the code calls ([slices.SortFunc],
      [filepath.Join], [filepath.Dir], [os.ReadFile], [yaml.Unmarshal],
      [yaml.Marshal]) are parameters; [slices.SortFunc] is assumed to
      return a sorted permutation, nothing is assumed of the others. *)

From Stdlib Require Import String Ascii List ZArith Bool Lia Arith.
From Stdlib Require Import Permutation Sorted OrdersEx.
Import ListNotations.

Local Open Scope string_scope.
Local Open Scope list_scope.

(* ================================================================== *)
(** * Data model *)

(** Leaves of a decoded document: [string], [int], [bool] and [nil].
    The other values the merger treats as leaves (floating point numbers,
    timestamps, mappings with keys that are not strings) are not part of
    the model.  Every leaf of the model is deeply equal to itself, which a
    floating point NaN is not; a statement that needs this of the leaves
    says so in a hypothesis. *)
Inductive scalar : Type :=
| Str (s : string)
| Int (z : Z)
| Bool (b : bool)
| Null.

(** The three structural kinds: [[]any], [map[string]any], anything else. *)
#[local] Set Warnings "-register-all".
Inductive value : Type :=
| Seq (elems : list value)
| Map (entries : list (string * value))
| Scalar (s : scalar).

Definition mapping := list (string * value).

(** The result of formatting a value with [%T]. *)
Inductive goType : Type :=
| TSlice | TMap | TString | TInt | TBool | TNil.

Definition typeOf (v : value) : goType :=
  match v with
  | Seq _ => TSlice
  | Map _ => TMap
  | Scalar (Str _) => TString
  | Scalar (Int _) => TInt
  | Scalar (Bool _) => TBool
  | Scalar Null => TNil
  end.

(** [dv, exists := dst[key]] *)
Fixpoint lookup (m : mapping) (key : string) : option value :=
  match m with
  | [] => None
  | (k, v) :: rest => if String.eqb k key then Some v else lookup rest key
  end.

(** [dst[key] = v]: an existing key keeps its place, a new key is added. *)
Fixpoint store (m : mapping) (key : string) (v : value) : mapping :=
  match m with
  | [] => [(key, v)]
  | (k, w) :: rest =>
      if String.eqb k key then (k, v) :: rest else (k, w) :: store rest key v
  end.

Definition keys (m : mapping) : list string := map fst m.

Definition scalar_eqb (a b : scalar) : bool :=
  match a, b with
  | Str x, Str y => String.eqb x y
  | Int x, Int y => Z.eqb x y
  | Bool x, Bool y => Bool.eqb x y
  | Null, Null => true
  | _, _ => false
  end.

(** [reflect.DeepEqual(sv, dv)] at its only call site, where [sv] is a
    scalar: values of different dynamic types differ. *)
Definition deepEqual (sv : scalar) (dv : value) : bool :=
  match dv with
  | Scalar d => scalar_eqb sv d
  | _ => false
  end.

(* ================================================================== *)
(** * Strings *)

(** [strings.HasPrefix(s, prefix)]:
    [len(s) >= len(prefix) && s[:len(prefix)] == prefix] *)
Definition HasPrefix (s pre : string) : bool :=
  (String.length pre <=? String.length s)%nat
  && String.eqb (substring 0 (String.length pre) s) pre.

(** [strings.HasSuffix(s, suffix)]:
    [len(s) >= len(suffix) && s[len(s)-len(suffix):] == suffix] *)
Definition HasSuffix (s suf : string) : bool :=
  (String.length suf <=? String.length s)%nat
  && String.eqb
       (substring (String.length s - String.length suf) (String.length suf) s)
       suf.

(** [cmp.Compare] on strings: bytewise lexicographic order. *)
Definition cmp_Compare (a b : string) : Z :=
  match String.compare a b with
  | Lt => (-1)%Z
  | Eq => 0%Z
  | Gt => 1%Z
  end.

(** [cmp.Or]: the first argument that is not zero. *)
Fixpoint cmp_Or (vals : list Z) : Z :=
  match vals with
  | [] => 0%Z
  | v :: rest => if Z.eqb v 0 then cmp_Or rest else v
  end.

Definition compareBool (a b : bool) : Z :=
  if Bool.eqb a b then 0%Z
  else if a then 1%Z
  else (-1)%Z.

(* ================================================================== *)
(** * Policy matcher *)

Record Options : Type := mkOptions {
  FilesDir : string;
  ResolvePath : list string;
  DefaultOverWrite : bool;
  Overwrite : list string;
  Append : list string
}.

(** [&Options{}] *)
Definition emptyOptions : Options := mkOptions "" [] false [] [].

Record policyEntry : Type := mkEntry {
  pattern : string;
  policy : bool;
  isRelative : bool
}.

Record mergePolicy : Type := mkPolicy {
  overwrite : list policyEntry;
  defaultOverwrite : bool;
  resolvePaths_ : list policyEntry
}.

(** [policyEntry.match] *)
Definition entry_match (e : policyEntry) (contextPath : string) : bool :=
  if isRelative e && HasSuffix contextPath (pattern e) then true
  else if String.eqb (pattern e) contextPath then true
  else false.

(** The predicate given to [slices.ContainsFunc] in [addPolicy]; the
    pattern compared is the one the caller passed, before it is rewritten. *)
Definition conflicts (pat : string) (pol : bool) (p : policyEntry) : bool :=
  String.eqb (pattern p) pat && negb (Bool.eqb (policy p) pol).

(** [addPolicy]; [None] is the [panic]. *)
Definition addPolicy (policies : list policyEntry) (pat : string) (pol : bool)
  : option (list policyEntry) :=
  if existsb (conflicts pat pol) policies then None
  else
    let pat' :=
      if negb (HasPrefix pat ".") && negb (HasPrefix pat "$.")
      then ("$." ++ pat)%string else pat in
    Some (policies ++ [mkEntry pat' pol (HasPrefix pat' ".")]).

(** The loops [for _, pattern := range ... { acc = addPolicy(acc, pattern, b) }] *)
Fixpoint addPolicies (acc : list policyEntry) (pats : list string) (pol : bool)
  : option (list policyEntry) :=
  match pats with
  | [] => Some acc
  | p :: rest =>
      match addPolicy acc p pol with
      | None => None
      | Some acc' => addPolicies acc' rest pol
      end
  end.

(** The comparison function of [buildPolicy]: absolute before relative,
    then by pattern. *)
Definition policyCmp (a b : policyEntry) : Z :=
  cmp_Or [compareBool (isRelative a) (isRelative b);
          cmp_Compare (pattern a) (pattern b)].

Section BuildPolicy.

(** [slices.SortFunc] *)
Variable SortFunc :
  list policyEntry -> (policyEntry -> policyEntry -> Z) -> list policyEntry.

(** [buildPolicy]; [None] when [addPolicy] panics. *)
Definition buildPolicy (c : Options) : option mergePolicy :=
  match addPolicies [] (Overwrite c) true with
  | None => None
  | Some ow1 =>
      match addPolicies ow1 (Append c) false with
      | None => None
      | Some ow2 =>
          let ow := SortFunc ow2 policyCmp in
          match addPolicies [] (ResolvePath c) true with
          | None => None
          | Some rp => Some (mkPolicy ow (DefaultOverWrite c) rp)
          end
      end
  end.

End BuildPolicy.

(** [mergePolicy.isOverwrite] *)
Fixpoint firstMatch (entries : list policyEntry) (contextPath : string)
  : option policyEntry :=
  match entries with
  | [] => None
  | e :: rest =>
      if entry_match e contextPath then Some e else firstMatch rest contextPath
  end.

Definition isOverwrite (m : mergePolicy) (contextPath : string) : bool :=
  match firstMatch (overwrite m) contextPath with
  | Some entry => policy entry
  | None => defaultOverwrite m
  end.

(** [mergePolicy.resolvePath] *)
Definition resolvePath (m : mergePolicy) (contextPath : string) : bool :=
  match firstMatch (resolvePaths_ m) contextPath with
  | Some _ => true
  | None => false
  end.

(** The insertion sort that [slices.SortFunc] runs on slices of at most
    twelve elements: each element in turn moves left while it compares
    strictly below its left neighbour.  [revPrefix] is the sorted prefix,
    last element first. *)
Fixpoint insertLeft (cmp : policyEntry -> policyEntry -> Z) (x : policyEntry)
  (revPrefix : list policyEntry) : list policyEntry :=
  match revPrefix with
  | [] => [x]
  | y :: rest =>
      if (cmp x y <? 0)%Z then y :: insertLeft cmp x rest
      else x :: y :: rest
  end.

Definition insertionSortCmpFunc (data : list policyEntry)
  (cmp : policyEntry -> policyEntry -> Z) : list policyEntry :=
  rev (fold_left (fun acc x => insertLeft cmp x acc) data []).

(** [a] sorts strictly before [b]. *)
Definition policyLess (a b : policyEntry) : Prop := (policyCmp a b < 0)%Z.

(** The result holds the same entries, and no entry compares strictly
    below an entry before it. *)
Definition sortsPolicies
  (SortFunc : list policyEntry -> (policyEntry -> policyEntry -> Z) ->
              list policyEntry) : Prop :=
  forall l,
    Permutation (SortFunc l policyCmp) l /\
    StronglySorted (fun a b => ~ policyLess b a) (SortFunc l policyCmp).

(** A pattern as [addPolicy] stores it starts with [.] or with [$.]. *)
Definition normalized (e : policyEntry) : Prop :=
  HasPrefix (pattern e) "." = true \/ HasPrefix (pattern e) "$." = true.

(* ================================================================== *)
(** * Errors *)

(** One constructor per error the package builds; [External] stands for
    an error of [os.ReadFile] or of the YAML library. *)
Inductive error : Type :=
| External (msg : string)
| ErrMismatch (cpath : string) (srcT dstT : goType)
    (* "key[%s] mismatch: src(%T) vs dst(%T)" *)
| ErrSeqDuplicated (cpath : string)
    (* "key[%s] duplicated (overrwrite=false)" *)
| ErrDuplicateKeys (cpath : string)
    (* "duplicate Keys(overrwrite=false): %s" *)
| ErrReadingYaml (cause : error)
    (* "error reading yaml: %w" *)
| ErrFile (path : string) (cause : error)
    (* "error file[%s]: %w" *)
| ErrDuringMerge (path : string) (cause : error)
    (* "error during Merge[%s]: %w" *)
| ErrMergeFiles (paths : list string) (cause : error).
    (* "file[%s]: %w", formatted with the whole argument list *)

Inductive result (A : Type) : Type :=
| Ok (a : A)
| Err (e : error).

Arguments Ok {A} a.
Arguments Err {A} e.

Definition bind {A B : Type} (r : result A) (k : A -> result B) : result B :=
  match r with
  | Ok a => k a
  | Err e => Err e
  end.

Notation "x <- r ;; k" := (bind r (fun x => k))
  (at level 61, r at next level, right associativity).

(* ================================================================== *)
(** * Path resolver *)

Section ResolveLoops.

(** The recursive call [m.resolvePathsValue(v, fileRoot, ctxpath)]: the
    first component is [v] after the call (maps below it are mutated in
    place), the second is the pair the call returns. *)
Variable rec : value -> string -> value * (value * bool).

(** The loop of [resolvePathsValue] over the elements of a sequence; it
    returns the elements after the loop and the slice [updated]. *)
Fixpoint rangeElems (v : list value) (ctxpath : string) (updated : list value)
  : list value * list value :=
  match v with
  | [] => ([], updated)
  | vi :: rest =>
      let '(vi', (upv, ok)) := rec vi ctxpath in
      let updated := if ok then updated ++ [upv] else updated in
      let '(rest', updated) := rangeElems rest ctxpath updated in
      (vi' :: rest', updated)
  end.

(** The loop of [resolvePaths] over the keys of [object]. *)
Fixpoint rangeObject (object : mapping) (ctxpath : string) : mapping :=
  match object with
  | [] => []
  | (k, v) :: rest =>
      let cpath := (ctxpath ++ "." ++ k)%string in
      let '(v', (vv, ok)) := rec v cpath in
      (k, if ok then vv else v') :: rangeObject rest ctxpath
  end.

End ResolveLoops.

Section Resolve.

(** [filepath.Join] of two elements *)
Variable Join : string -> string -> string.

Variable m : mergePolicy.

(** [merge.resolvePathsValue]; [nil] is [Scalar Null]. *)
Fixpoint resolvePathsValue (v : value) (fileRoot ctxpath : string) {struct v}
  : value * (value * bool) :=
  match v with
  | Seq elems =>
      let '(elems', updated) :=
        rangeElems (fun vi c => resolvePathsValue vi fileRoot c)
          elems ctxpath [] in
      (Seq elems',
       (Seq updated, Nat.eqb (List.length updated) (List.length elems)))
  | Map object =>
      (Map (rangeObject (fun vi c => resolvePathsValue vi fileRoot c)
              object ctxpath),
       (Scalar Null, false))
  | Scalar (Str s) =>
      if resolvePath m ctxpath
      then (v, (Scalar (Str (Join fileRoot s)), true))
      else (v, (Scalar Null, false))
  | Scalar _ => (v, (Scalar Null, false))
  end.

(** [merge.resolvePaths]; the result is [object] after the call. *)
Definition resolvePaths (object : mapping) (fileRoot ctxpath : string)
  : mapping :=
  rangeObject (fun vi c => resolvePathsValue vi fileRoot c) object ctxpath.

End Resolve.

(** The value a key of [object] holds after its iteration of
    [resolvePaths]: the value returned when the call reports a rewrite,
    otherwise the old value as the call left it. *)
Definition resolvedSlot (Join : string -> string -> string) (m : mergePolicy)
  (v : value) (fileRoot cpath : string) : value :=
  let '(v', (vv, ok)) := resolvePathsValue Join m v fileRoot cpath in
  if ok then vv else v'.

(** The three components of a call of [resolvePathsValue] on [v]: [v]
    after the call (mutated in place), the value returned and the flag
    returned. *)
Definition afterCall (Join : string -> string -> string) (m : mergePolicy)
  (v : value) (fileRoot ctxpath : string) : value :=
  fst (resolvePathsValue Join m v fileRoot ctxpath).

Definition returnedValue (Join : string -> string -> string) (m : mergePolicy)
  (v : value) (fileRoot ctxpath : string) : value :=
  fst (snd (resolvePathsValue Join m v fileRoot ctxpath)).

Definition reportsRewrite (Join : string -> string -> string) (m : mergePolicy)
  (v : value) (fileRoot ctxpath : string) : bool :=
  snd (snd (resolvePathsValue Join m v fileRoot ctxpath)).

(* ================================================================== *)
(** * Document merger *)

Definition isSome {A : Type} (o : option A) : bool :=
  match o with Some _ => true | None => false end.

Section MergeLoop.

Variable m : mergePolicy.

(** The recursive call [m.mergeMapping(dv, sv, cpath)] on a source value
    that is a mapping; the result is the destination after the call. *)
Variable rec : mapping -> value -> string -> result mapping.

(** The body of the loop of [mergeMapping] for one key of [src]; the
    result is [dst] after the body, or the error the body returns. *)
Definition mergeKey (dst : mapping) (ctxpath key : string) (sv : value)
  : result mapping :=
  let cpath := (ctxpath ++ "." ++ key)%string in
  match sv with
  (* Sequence *)
  | Seq svl =>
      let exists_ := isSome (lookup dst key) in
      let dv := match lookup dst key with Some v => v | None => Scalar Null end in
      let isSlice := match dv with Seq _ => true | _ => false end in
      let dvv := match dv with Seq l => l | _ => [] end in
      if negb exists_ then
        Ok (store dst key sv)
      else if exists_ && isSlice then
        let sv :=
          if negb (isOverwrite m ctxpath) then Seq (dvv ++ svl) else sv in
        Ok (store dst key sv)
      else if exists_ && negb isSlice then
        Err (ErrMismatch cpath (typeOf sv) (typeOf dv))
      else if exists_ && isOverwrite m ctxpath then
        Err (ErrSeqDuplicated cpath)
      else Ok dst
  (* Mapping *)
  | Map _ =>
      let exists_ := isSome (lookup dst key) in
      let dv := match lookup dst key with Some v => v | None => Scalar Null end in
      let isMap := match dv with Map _ => true | _ => false end in
      let dvv := match dv with Map d => d | _ => [] end in
      if negb exists_ then
        (* Dest Missing *)
        dv' <- rec [] sv cpath ;;
        Ok (store dst key (Map dv'))
      else if isMap then
        (* Dest Merge *)
        dvv' <- rec dvv sv cpath ;;
        Ok (store dst key (Map dvv'))
      else
        (* Dest type mismatch *)
        Err (ErrMismatch cpath (typeOf sv) (typeOf dv))
  (* Scalar *)
  | Scalar s =>
      let ok := isSome (lookup dst key) in
      let dv := match lookup dst key with Some v => v | None => Scalar Null end in
      if ok && deepEqual s dv then Ok dst
      else if ok && negb (isOverwrite m ctxpath) then
        Err (ErrDuplicateKeys cpath)
      else Ok (store dst key sv)
  end.

(** [for key, sv := range src { ... }; return nil] *)
Fixpoint rangeSrc (dst src : mapping) (ctxpath : string) : result mapping :=
  match src with
  | [] => Ok dst
  | (key, sv) :: rest =>
      dst' <- mergeKey dst ctxpath key sv ;;
      rangeSrc dst' rest ctxpath
  end.

End MergeLoop.

(** [merge.mergeMapping] with the source given as a value: only a [Map]
    reaches the recursive call. *)
Fixpoint mergeValue (m : mergePolicy) (dst : mapping) (src : value)
  (ctxpath : string) {struct src} : result mapping :=
  match src with
  | Map entries => rangeSrc m (mergeValue m) dst entries ctxpath
  | _ => Ok dst
  end.

(** [merge.mergeMapping]: [Ok dst'] is a [nil] error with [dst] mutated
    into [dst']; [Err e] is the error returned (the half-merged [dst] is
    then dropped by every caller). *)
Definition mergeMapping (m : mergePolicy) (dst src : mapping)
  (ctxpath : string) : result mapping :=
  rangeSrc m (mergeValue m) dst src ctxpath.

(** One iteration of the loop of [mergeMapping]. *)
Definition mergeStep (m : mergePolicy) (dst : mapping) (ctxpath key : string)
  (sv : value) : result mapping :=
  mergeKey m (mergeValue m) dst ctxpath key sv.

(* ================================================================== *)
(** * Merging files *)

(** A variable of type [map[string]any] holds a map or [nil]: [None] is
    [nil].  [range] over a [nil] map visits nothing. *)
Definition entriesOf (config : option mapping) : mapping :=
  match config with
  | Some entries => entries
  | None => []
  end.

(** The fields of [merge] that change; [root = None] is the [nil] map. *)
Record merge : Type := mkMerge {
  merge_policy : mergePolicy;
  filesDir : string;
  root : option mapping
}.

(** What a call of [MergeFiles] does: it panics or it returns. *)
Inductive outcome (A : Type) : Type :=
| Panics
| Returns (r : result A).

Arguments Panics {A}.
Arguments Returns {A} r.

Section Files.

Variable SortFunc :
  list policyEntry -> (policyEntry -> policyEntry -> Z) -> list policyEntry.
Variable Join : string -> string -> string.       (* filepath.Join *)
Variable Dir : string -> string.                   (* filepath.Dir *)
Variable ReadFile : string -> result string.       (* os.ReadFile *)
(** [yaml.Unmarshal(data, &config)]: the value of [config] after the
    call, or the error; a document that is null leaves [config] nil. *)
Variable Unmarshal : string -> result (option mapping).
Variable Marshal : option mapping -> result string. (* yaml.Marshal *)

(** [merge.mergeBytes] *)
Definition mergeBytes (m : merge) (fileRoot data : string) : result merge :=
  match Unmarshal data with
  | Err err => Err (ErrReadingYaml err)
  | Ok config =>
      let config :=
        if negb (String.eqb fileRoot "")
        then option_map
               (fun object =>
                  resolvePaths Join (merge_policy m) object fileRoot "$")
               config
        else config in
      match root m with
      | None => Ok (mkMerge (merge_policy m) (filesDir m) config)
      | Some r =>
          r' <- mergeMapping (merge_policy m) r (entriesOf config) "$" ;;
          Ok (mkMerge (merge_policy m) (filesDir m) (Some r'))
      end
  end.

(** [merge.mergeFile] *)
Definition mergeFile (m : merge) (path : string) : result merge :=
  match ReadFile (Join (filesDir m) path) with
  | Err err => Err (ErrFile path err)
  | Ok d =>
      match mergeBytes m (Dir path) d with
      | Err err => Err (ErrDuringMerge path err)
      | Ok m' => Ok m'
      end
  end.

(** The loop of [MergeFiles] over its paths; [all] is the whole argument
    list, which the error message prints. *)
Fixpoint rangePaths (all : list string) (m : merge) (path : list string)
  : result merge :=
  match path with
  | [] => Ok m
  | f :: rest =>
      match mergeFile m f with
      | Err err => Err (ErrMergeFiles all err)
      | Ok m' => rangePaths all m' rest
      end
  end.

(** [MergeFiles]; [options = None] is the [nil] pointer. *)
Definition MergeFiles (options : option Options) (path : list string)
  : outcome string :=
  let options := match options with Some o => o | None => emptyOptions end in
  match buildPolicy SortFunc options with
  | None => Panics
  | Some pol =>
      match rangePaths path (mkMerge pol (FilesDir options) None) path with
      | Err err => Returns (Err err)
      | Ok m => Returns (Marshal (root m))
      end
  end.

End Files.

(* ================================================================== *)
(** * Instances and sample documents *)

(** An instance for [filepath.Join]: an empty element is ignored,
    otherwise the two are joined with a slash.  It agrees with
    [filepath.Join] where one element is empty and the other a clean path,
    and where both are relative paths made of plain names ([host-dir],
    [foo.ign], [a/b]: no empty, [.] or [..] element and no leading or
    trailing slash); it does not clean its result as [filepath.Join]
    does, and it is used on such arguments only. *)
Definition joinClean (a b : string) : string :=
  if String.eqb a "" then b
  else if String.eqb b "" then a
  else (a ++ "/" ++ b)%string.

(** The policy [MergeFiles] builds from [c], with the insertion sort. *)
Definition policyOf (c : Options) : option mergePolicy :=
  buildPolicy insertionSortCmpFunc c.

Definition ints (zs : list Z) : value := Seq (map (fun z => Scalar (Int z)) zs).

(** [{list: [1, 2]}] and [{list: [3]}] *)
Definition doc_list12 : mapping := [("list", ints [1; 2]%Z)].
Definition doc_list3 : mapping := [("list", ints [3]%Z)].

(** [{a: [1]}], [{a: {b: 1}}], [{a: 1}] and [{a: x}] *)
Definition doc_a_seq : mapping := [("a", ints [1]%Z)].
Definition doc_a_map : mapping := [("a", Map [("b", Scalar (Int 1))])].
Definition doc_a_1 : mapping := [("a", Scalar (Int 1))].
Definition doc_a_x : mapping := [("a", Scalar (Str "x"))].

(** The entry of [doc_files] under [$.storage.files], before and after
    resolution against [host-dir]. *)
Definition file_entry : value :=
  Map [("path", Scalar (Str "/etc/foo"));
       ("contents", Map [("local", Scalar (Str "foo.ign"))])].
Definition file_entry_resolved : value :=
  Map [("path", Scalar (Str "/etc/foo"));
       ("contents", Map [("local", Scalar (Str "host-dir/foo.ign"))])].

(** [{storage: {files: [{path: /etc/foo, contents: {local: foo.ign}}]}}] *)
Definition doc_files : mapping :=
  [("storage", Map [("files", Seq [file_entry])])].

(** [{local: [a.ign, {local: b.ign}]}]: a sequence of a string and a
    mapping *)
Definition mixed_seq : list value :=
  [Scalar (Str "a.ign"); Map [("local", Scalar (Str "b.ign"))]].
Definition doc_mixed : mapping := [("local", Seq mixed_seq)].

(** [{local: [a.ign, 5]}]: a sequence of a string and a number *)
Definition plain_seq : list value := [Scalar (Str "a.ign"); Scalar (Int 5)].
Definition doc_plain : mapping := [("local", Seq plain_seq)].

Definition opts_overwrite_list : Options :=
  mkOptions "" [] false ["$.list"] [].

Definition opts_default_overwrite : Options :=
  mkOptions "" [] true [] [].

Definition opts_resolve_local : Options :=
  mkOptions "" [".local"] false [] [].

(** The options of the test case both-types/absolute-wins. *)
Definition opts_both_types : Options :=
  mkOptions "" [] false [".local"] ["$.storage.files.local"].

(** The same bare pattern declared overwrite and append. *)
Definition opts_foo_twice : Options :=
  mkOptions "" [] false ["foo"] ["foo"].

(** A file system with four documents, decoded by table; the document
    of null.yaml is null. *)
Definition sampleReadFile (path : string) : result string :=
  if String.eqb path "one.yaml" then Ok "list: [1, 2]"
  else if String.eqb path "two.yaml" then Ok "list: [3]"
  else if String.eqb path "bad.yaml" then Ok "list: {x: 1}"
  else if String.eqb path "null.yaml" then Ok "~"
  else Err (External "no such file").

Definition sampleUnmarshal (data : string) : result (option mapping) :=
  if String.eqb data "list: [1, 2]" then Ok (Some doc_list12)
  else if String.eqb data "list: [3]" then Ok (Some doc_list3)
  else if String.eqb data "list: {x: 1}"
       then Ok (Some [("list", Map [("x", Scalar (Int 1))])])
  else if String.eqb data "~" then Ok None
  else Err (External "yaml: cannot unmarshal").

(** [filepath.Dir] of a bare file name *)
Definition sampleDir (path : string) : string := ".".


(** Source kinds that the merger checks against the kind of the
    destination: a sequence needs a sequence, a mapping needs a mapping. *)
Definition structuralMismatch (sv dv : value) : bool :=
  match sv, dv with
  | Seq _, Seq _ => false
  | Seq _, _ => true
  | Map _, Map _ => false
  | Map _, _ => true
  | Scalar _, _ => false
  end.

(** No mapping occurs in the value, at any depth. *)
Fixpoint mapFree (v : value) : bool :=
  match v with
  | Seq elems => forallb mapFree elems
  | Map _ => false
  | Scalar _ => true
  end.

(** The policies that [policyOf] computes for the sample options. *)
Definition pol_default : mergePolicy := mkPolicy [] false [].
Definition pol_default_overwrite : mergePolicy := mkPolicy [] true [].
Definition pol_overwrite_list : mergePolicy :=
  mkPolicy [mkEntry "$.list" true false] false [].
Definition pol_resolve_local : mergePolicy :=
  mkPolicy [] false [mkEntry ".local" true true].
Definition pol_both_types : mergePolicy :=
  mkPolicy [mkEntry "$.storage.files.local" false false;
            mkEntry ".local" true true] false [].
Definition pol_foo_twice : mergePolicy :=
  mkPolicy [mkEntry "$.foo" true false; mkEntry "$.foo" false false] false [].

(* ================================================================== *)
(** * Notions used by the further properties *)

(** The rewriting of the pattern in [addPolicy]: a pattern that starts
    neither with [.] nor with [$.] gets [$.] in front. *)
Definition normalizePattern (pat : string) : string :=
  if negb (HasPrefix pat ".") && negb (HasPrefix pat "$.")
  then ("$." ++ pat)%string else pat.

(** The entry [addPolicy] appends for [pat] and [pol]. *)
Definition entryFor (pat : string) (pol : bool) : policyEntry :=
  mkEntry (normalizePattern pat) pol (HasPrefix (normalizePattern pat) ".").

(** No string occurs twice. *)
Fixpoint distinct (l : list string) : bool :=
  match l with
  | [] => true
  | x :: rest => negb (existsb (String.eqb x) rest) && distinct rest
  end.

(** Every mapping of the document, at any depth, has each key once, as
    a Go map has. *)
Fixpoint uniqueKeys (v : value) : bool :=
  match v with
  | Seq elems => forallb uniqueKeys elems
  | Map entries =>
      distinct (map fst entries)
      && forallb (fun kv => uniqueKeys (snd kv)) entries
  | Scalar _ => true
  end.

(** Every leaf of the document is deeply equal to itself
    ([reflect.DeepEqual(v, v)] holds: in the program, no NaN). *)
Fixpoint selfEqualLeaves (v : value) : bool :=
  match v with
  | Seq elems => forallb selfEqualLeaves elems
  | Map entries => forallb (fun kv => selfEqualLeaves (snd kv)) entries
  | Scalar s => deepEqual s (Scalar s)
  end.

(** No sequence occurs in the document, at any depth. *)
Fixpoint seqFree (v : value) : bool :=
  match v with
  | Seq _ => false
  | Map entries => forallb (fun kv => seqFree (snd kv)) entries
  | Scalar _ => true
  end.

(** Same kind, same keys in the same order, same lengths, at every
    depth; leaves may differ in their contents but not in their type. *)
Fixpoint sameShape (a b : value) : bool :=
  match a, b with
  | Seq xs, Seq ys =>
      (fix all2 (xs ys : list value) : bool :=
         match xs, ys with
         | [], [] => true
         | x :: xs', y :: ys' => sameShape x y && all2 xs' ys'
         | _, _ => false
         end) xs ys
  | Map xs, Map ys =>
      (fix all2 (xs ys : list (string * value)) : bool :=
         match xs, ys with
         | [], [] => true
         | (k, x) :: xs', (k', y) :: ys' =>
             String.eqb k k' && sameShape x y && all2 xs' ys'
         | _, _ => false
         end) xs ys
  | Scalar (Str _), Scalar (Str _) => true
  | Scalar (Int x), Scalar (Int y) => Z.eqb x y
  | Scalar (Bool x), Scalar (Bool y) => Bool.eqb x y
  | Scalar Null, Scalar Null => true
  | _, _ => false
  end.

(** What an error of [mergeMapping] called at [ctxpath] looks like: it is
    about a key [key] of a mapping whose context path [parent] is
    [ctxpath] or below it. *)
Definition mergeErrorAt (m : mergePolicy) (ctxpath : string) (e : error)
  : Prop :=
  exists below key,
    let parent := (ctxpath ++ below)%string in
    (exists srcT dstT,
        e = ErrMismatch (parent ++ "." ++ key) srcT dstT /\
        (srcT = TSlice \/ srcT = TMap) /\ srcT <> dstT) \/
    (e = ErrDuplicateKeys (parent ++ "." ++ key) /\
     isOverwrite m parent = false).

(** The root is a map: [nil], or a document with each key once in every
    mapping. *)
Definition rootIsMap (m : merge) : Prop :=
  match root m with
  | None => True
  | Some r => uniqueKeys (Map r) = true
  end.

(** Options with five patterns, among them the relative pattern [.b]
    declared overwrite and [.a.b] declared append, listed in two orders;
    options whose append pattern is spelled like a stored overwrite
    pattern. *)
Definition opts_many : Options :=
  mkOptions "" [] false ["z"; ".b"; "$.k"] [".a.b"; "y"].
Definition opts_many_shuffled : Options :=
  mkOptions "" [] false ["$.k"; "z"; ".b"] ["y"; ".a.b"].
Definition opts_conflict : Options :=
  mkOptions "" [] false ["foo"] ["$.foo"].

(** The policies [policyOf] computes for [opts_many] and for
    [opts_many_shuffled]. *)
Definition pol_many : mergePolicy :=
  Eval vm_compute in
    match policyOf opts_many with Some pol => pol | None => pol_default end.
Definition pol_many_shuffled : mergePolicy :=
  Eval vm_compute in
    match policyOf opts_many_shuffled with
    | Some pol => pol
    | None => pol_default
    end.

(** [{a: {b: 1, c: x}, d: true}] and [{e: [1], a2: {f: null}}] *)
Definition doc_nested : mapping :=
  [("a", Map [("b", Scalar (Int 1)); ("c", Scalar (Str "x"))]);
   ("d", Scalar (Bool true))].
Definition doc_other : mapping :=
  [("e", ints [1]%Z); ("a2", Map [("f", Scalar Null)])].

(** Overwrite by default with one append pattern, for the key [list] at
    the root and for the key [list] under [a], and the policies [policyOf]
    computes for them. *)
Definition opts_append_list : Options :=
  mkOptions "" [] true [] ["$.list"].
Definition pol_append_list : mergePolicy :=
  mkPolicy [mkEntry "$.list" false false] true [].
Definition opts_append_nested : Options :=
  mkOptions "" [] true [] ["$.a.list"].
Definition pol_append_nested : mergePolicy :=
  mkPolicy [mkEntry "$.a.list" false false] true [].

(** [{a: {list: [1, 2]}}] and [{a: {list: [3]}}] *)
Definition doc_a_list12 : mapping := [("a", Map doc_list12)].
Definition doc_a_list3 : mapping := [("a", Map doc_list3)].

(** [{a: {b: 2}}]: a second value for [$.a.b] *)
Definition doc_nested_conflict : mapping :=
  [("a", Map [("b", Scalar (Int 2))])].

(** [{local: [a.ign, b.ign]}] *)
Definition doc_locals : mapping :=
  [("local", Seq [Scalar (Str "a.ign"); Scalar (Str "b.ign")])].

(* ================================================================== *)
(** * Properties *)

(** ** The sample policies *)

Lemma policyOf_empty : policyOf emptyOptions = Some pol_default.
Proof. reflexivity. Qed.

Lemma policyOf_default_overwrite :
  policyOf opts_default_overwrite = Some pol_default_overwrite.
Proof. reflexivity. Qed.

Lemma policyOf_overwrite_list :
  policyOf opts_overwrite_list = Some pol_overwrite_list.
Proof. reflexivity. Qed.

Lemma policyOf_resolve_local :
  policyOf opts_resolve_local = Some pol_resolve_local.
Proof. reflexivity. Qed.

Lemma policyOf_both_types : policyOf opts_both_types = Some pol_both_types.
Proof. reflexivity. Qed.

(** ** Maps *)

Lemma lookup_store_same (d : mapping) (k : string) (v : value) :
  lookup (store d k v) k = Some v.
Proof.
  induction d as [|[k' w] d IH]; simpl.
  - now rewrite String.eqb_refl.
  - destruct (String.eqb k' k) eqn:E; simpl; rewrite E; auto.
Qed.

Lemma lookup_store_other (d : mapping) (k k' : string) (v : value) :
  k <> k' -> lookup (store d k v) k' = lookup d k'.
Proof.
  intros Hne. induction d as [|[k0 w] d IH]; simpl.
  - destruct (String.eqb_spec k k'); congruence.
  - destruct (String.eqb_spec k0 k) as [->|Hk]; simpl.
    + destruct (String.eqb_spec k k'); congruence.
    + now rewrite IH.
Qed.

Lemma lookup_In (d : mapping) (k : string) (v : value) :
  NoDup (keys d) -> In (k, v) d -> lookup d k = Some v.
Proof.
  induction d as [|[k0 w] d IH]; simpl; intros Hnd Hin; [easy|].
  inversion Hnd as [|? ? Hnotin Hnd']; subst.
  destruct Hin as [Heq|Hin].
  - inversion Heq; subst. now rewrite String.eqb_refl.
  - destruct (String.eqb_spec k0 k) as [->|Hk]; [|auto].
    exfalso. apply Hnotin. unfold keys. now apply (in_map fst) in Hin.
Qed.

(** ** The comparison of [buildPolicy] is a strict weak order *)

Lemma policyLess_iff (a b : policyEntry) :
  policyLess a b <->
  (isRelative a = false /\ isRelative b = true) \/
  (isRelative a = isRelative b /\
   String.compare (pattern a) (pattern b) = Lt).
Proof.
  unfold policyLess, policyCmp, compareBool, cmp_Compare. simpl.
  destruct (isRelative a), (isRelative b); simpl;
    destruct (String.compare (pattern a) (pattern b)); simpl;
    split; intros H; try lia;
    try (destruct H as [[? ?]|[? ?]]; congruence);
    try (right; split; [reflexivity|reflexivity]);
    try (left; split; reflexivity).
Qed.

Lemma string_compare_trans (a b c : string) :
  String.compare a b = Lt -> String.compare b c = Lt ->
  String.compare a c = Lt.
Proof. apply OrdersEx.String_as_OT.lt_strorder. Qed.

Lemma string_compare_irrefl (a : string) : String.compare a a <> Lt.
Proof.
  intros H. pose proof (String.compare_antisym a a) as Hanti.
  rewrite H in Hanti. discriminate.
Qed.

Lemma policyLess_asym (a b : policyEntry) :
  policyLess a b -> ~ policyLess b a.
Proof.
  rewrite !policyLess_iff.
  intros [[Ha Hb]|[Hr Hc]] [[Hb' Ha']|[Hr' Hc']]; try congruence.
  apply (string_compare_irrefl (pattern a)).
  eapply string_compare_trans; eassumption.
Qed.

Lemma policyLess_negtrans (a b c : policyEntry) :
  policyLess a c -> policyLess a b \/ policyLess b c.
Proof.
  rewrite !policyLess_iff.
  intros [[Ha Hc]|[Hr Hlt]].
  - destruct (isRelative b) eqn:Hb; [left|right]; left; auto.
  - destruct (isRelative b) eqn:Hb, (isRelative a) eqn:Ha;
      try (left; left; split; congruence);
      try (right; left; split; congruence).
    + destruct (String.compare (pattern a) (pattern b)) eqn:Hab.
      * apply String.compare_eq_iff in Hab. right; right.
        split; [congruence|]. now rewrite <- Hab.
      * left; right; auto.
      * right; right. split; [congruence|].
        eapply string_compare_trans; [|exact Hlt].
        rewrite String.compare_antisym, Hab. reflexivity.
    + destruct (String.compare (pattern a) (pattern b)) eqn:Hab.
      * apply String.compare_eq_iff in Hab. right; right.
        split; [congruence|]. now rewrite <- Hab.
      * left; right; auto.
      * right; right. split; [congruence|].
        eapply string_compare_trans; [|exact Hlt].
        rewrite String.compare_antisym, Hab. reflexivity.
Qed.

(** ** What [slices.SortFunc] guarantees, and the insertion sort *)

Lemma insertLeft_perm cmp x acc : Permutation (insertLeft cmp x acc) (x :: acc).
Proof.
  induction acc as [|y acc IH]; simpl; [reflexivity|].
  destruct (cmp x y <? 0)%Z.
  - rewrite IH. apply perm_swap.
  - reflexivity.
Qed.

Lemma insertLeft_sorted x acc :
  StronglySorted (fun a b => ~ policyLess a b) acc ->
  StronglySorted (fun a b => ~ policyLess a b) (insertLeft policyCmp x acc).
Proof.
  induction 1 as [|y acc Hs IH Hall]; simpl.
  - repeat constructor.
  - destruct (Z.ltb_spec (policyCmp x y) 0) as [Hlt|Hge].
    + constructor; [exact IH|].
      eapply Permutation_Forall; [symmetry; apply insertLeft_perm|].
      constructor; [|exact Hall].
      now apply policyLess_asym.
    + constructor; [constructor; assumption|].
      constructor; [unfold policyLess; lia|].
      rewrite Forall_forall in *. intros z Hz Hxz.
      destruct (policyLess_negtrans x y z Hxz) as [H|H].
      * unfold policyLess in H. lia.
      * exact (Hall z Hz H).
Qed.

Lemma StronglySorted_snoc {A} (R : A -> A -> Prop) l x :
  StronglySorted R l -> Forall (fun y => R y x) l ->
  StronglySorted R (l ++ [x]).
Proof.
  induction 1 as [|y l Hs IH Hall]; simpl; intros Hx.
  - repeat constructor.
  - inversion Hx; subst. constructor; [auto|].
    apply Forall_app; split; [exact Hall|]. now constructor.
Qed.

Lemma StronglySorted_rev {A} (R : A -> A -> Prop) l :
  StronglySorted R l -> StronglySorted (fun a b => R b a) (rev l).
Proof.
  induction 1 as [|y l Hs IH Hall]; simpl; [constructor|].
  apply StronglySorted_snoc; [exact IH|].
  now apply Forall_rev.
Qed.

Lemma insertionSort_fold_perm cmp data acc :
  Permutation (fold_left (fun acc x => insertLeft cmp x acc) data acc)
              (rev data ++ acc).
Proof.
  revert acc. induction data as [|x data IH]; intros acc; simpl; [reflexivity|].
  rewrite IH, insertLeft_perm, <- app_assoc. reflexivity.
Qed.

Lemma insertionSort_fold_sorted data acc :
  StronglySorted (fun a b => ~ policyLess a b) acc ->
  StronglySorted (fun a b => ~ policyLess a b)
    (fold_left (fun acc x => insertLeft policyCmp x acc) data acc).
Proof.
  revert acc. induction data as [|x data IH]; intros acc Hs; simpl; [exact Hs|].
  apply IH. now apply insertLeft_sorted.
Qed.

Lemma insertionSortCmpFunc_sorts : sortsPolicies insertionSortCmpFunc.
Proof.
  intros l. unfold insertionSortCmpFunc. split.
  - rewrite <- Permutation_rev, insertionSort_fold_perm, app_nil_r.
    symmetry. apply Permutation_rev.
  - apply (StronglySorted_rev (fun a b => ~ policyLess a b)).
    apply insertionSort_fold_sorted. constructor.
Qed.

(** ** Policy matcher *)

Lemma firstMatch_Some (l : list policyEntry) (p : string) (e : policyEntry) :
  firstMatch l p = Some e -> In e l /\ entry_match e p = true.
Proof.
  induction l as [|x l IH]; simpl; [discriminate|].
  destruct (entry_match x p) eqn:Hx.
  - intros [= <-]. auto.
  - intros H. destruct (IH H). auto.
Qed.

Lemma entry_match_absolute (e : policyEntry) (p : string) :
  isRelative e = false -> entry_match e p = true -> pattern e = p.
Proof.
  unfold entry_match. intros ->. simpl.
  destruct (String.eqb_spec (pattern e) p); [auto|discriminate].
Qed.

Lemma absolute_before_relative (a e : policyEntry) :
  isRelative a = false -> isRelative e = true -> policyLess a e.
Proof. intros Ha He. apply policyLess_iff. left. auto. Qed.

(** In a sorted set an absolute entry that matches makes the first match
    an absolute entry. *)
Lemma firstMatch_sorted_absolute (l : list policyEntry) (p : string)
  (a : policyEntry) :
  StronglySorted (fun x y => ~ policyLess y x) l ->
  In a l -> isRelative a = false -> entry_match a p = true ->
  exists e, firstMatch l p = Some e /\ isRelative e = false.
Proof.
  induction 1 as [|x l Hs IH Hall]; simpl; intros Hin Ha Hm; [easy|].
  destruct (entry_match x p) eqn:Hx.
  - exists x. split; [reflexivity|].
    destruct Hin as [->|Hin]; [exact Ha|].
    destruct (isRelative x) eqn:Hr; [|reflexivity].
    rewrite Forall_forall in Hall.
    exfalso. apply (Hall a Hin). now apply absolute_before_relative.
  - destruct Hin as [->|Hin]; [congruence|]. auto.
Qed.

Lemma buildPolicy_overwrite SortFunc (c : Options) (pol : mergePolicy) :
  buildPolicy SortFunc c = Some pol ->
  exists ow1 ow2,
    addPolicies [] (Overwrite c) true = Some ow1 /\
    addPolicies ow1 (Append c) false = Some ow2 /\
    overwrite pol = SortFunc ow2 policyCmp /\
    defaultOverwrite pol = DefaultOverWrite c.
Proof.
  unfold buildPolicy.
  destruct (addPolicies [] (Overwrite c) true) as [ow1|]; [|discriminate].
  destruct (addPolicies ow1 (Append c) false) as [ow2|] eqn:H2; [|discriminate].
  destruct (addPolicies [] (ResolvePath c) true) as [rp|]; [|discriminate].
  intros [= <-]. exists ow1, ow2. repeat split. exact H2.
Qed.

(** [addPolicy] does find a conflict when the pattern passed is spelled
    exactly like the pattern of a stored entry of the other kind. *)
Lemma addPolicy_panics_on_stored_pattern policies pat pol rel :
  In (mkEntry pat (negb pol) rel) policies ->
  addPolicy policies pat pol = None.
Proof.
  intros Hin. unfold addPolicy.
  assert (existsb (conflicts pat pol) policies = true) as ->; [|reflexivity].
  apply existsb_exists. eexists. split; [exact Hin|].
  unfold conflicts. simpl. rewrite String.eqb_refl. now destruct pol.
Qed.

Section SortedPolicy.

Variable SortFunc :
  list policyEntry -> (policyEntry -> policyEntry -> Z) -> list policyEntry.
Hypothesis SortFunc_sorts : sortsPolicies SortFunc.

Lemma buildPolicy_sorted (c : Options) (pol : mergePolicy) :
  buildPolicy SortFunc c = Some pol ->
  StronglySorted (fun x y => ~ policyLess y x) (overwrite pol).
Proof.
  intros H. destruct (buildPolicy_overwrite _ _ _ H) as (ow1 & ow2 & _ & _ & -> & _).
  apply SortFunc_sorts.
Qed.

(** C5: when an absolute entry and a relative entry of the conflict
    resolution set both match a context path, [isOverwrite] answers with
    the kind of the absolute entry, the kind declared for its pattern; in
    every set the answer is the kind of an absolute entry whose pattern is
    the path, never that of the relative entry.  With
    [Overwrite = [".local"]] and [Append = ["$.storage.files.local"]] the
    path [$.storage.files.local] resolves to append. *)
Theorem isOverwrite_absolute_wins :
  (forall (c : Options) (pol : mergePolicy) (p : string) (a r : policyEntry),
      buildPolicy SortFunc c = Some pol ->
      In a (overwrite pol) -> isRelative a = false ->
      entry_match a p = true ->
      In r (overwrite pol) -> isRelative r = true ->
      entry_match r p = true ->
      (forall a', In a' (overwrite pol) -> pattern a' = pattern a ->
                  policy a' = policy a) ->
      isOverwrite pol p = policy a) /\
  (forall (c : Options) (pol : mergePolicy) (p : string) (a r : policyEntry),
      buildPolicy SortFunc c = Some pol ->
      In a (overwrite pol) -> isRelative a = false ->
      entry_match a p = true ->
      In r (overwrite pol) -> isRelative r = true ->
      entry_match r p = true ->
      exists a0, In a0 (overwrite pol) /\ isRelative a0 = false /\
                 pattern a0 = p /\ isOverwrite pol p = policy a0) /\
  (exists pol,
      buildPolicy SortFunc opts_both_types = Some pol /\
      isOverwrite pol "$.storage.files.local" = false).
Proof.
  assert (Hgen : forall c pol p a,
      buildPolicy SortFunc c = Some pol ->
      In a (overwrite pol) -> isRelative a = false ->
      entry_match a p = true ->
      (forall a', In a' (overwrite pol) -> pattern a' = pattern a ->
                  policy a' = policy a) ->
      isOverwrite pol p = policy a).
  { intros c pol p a Hb Hin Ha Hm Huniq.
    pose proof (buildPolicy_sorted c pol Hb) as Hs.
    destruct (firstMatch_sorted_absolute _ p a Hs Hin Ha Hm) as (e & He & Hre).
    unfold isOverwrite. rewrite He.
    destruct (firstMatch_Some _ _ _ He) as [Hine Hme].
    apply Huniq; [exact Hine|].
    rewrite (entry_match_absolute e p Hre Hme).
    now rewrite (entry_match_absolute a p Ha Hm). }
  split; [|split].
  - intros c pol p a r Hb Hin Ha Hm _ _ _ Huniq. eauto.
  - intros c pol p a r Hb Hin Ha Hm _ _ _.
    pose proof (buildPolicy_sorted c pol Hb) as Hs.
    destruct (firstMatch_sorted_absolute _ p a Hs Hin Ha Hm) as (e & He & Hre).
    destruct (firstMatch_Some _ _ _ He) as [Hine Hme].
    exists e. repeat split; [exact Hine|exact Hre| |].
    + now apply entry_match_absolute.
    + unfold isOverwrite. now rewrite He.
  - destruct (buildPolicy SortFunc opts_both_types) as [pol|] eqn:Hb;
      [|discriminate Hb].
    exists pol. split; [reflexivity|].
    destruct (buildPolicy_overwrite _ _ _ Hb) as (ow1 & ow2 & H1 & H2 & Hov & _).
    vm_compute in H1. injection H1 as <-.
    vm_compute in H2. injection H2 as <-.
    destruct (SortFunc_sorts
                [mkEntry ".local" true true;
                 mkEntry "$.storage.files.local" false false]) as [Hperm _].
    rewrite <- Hov in Hperm.
    apply (Hgen opts_both_types pol "$.storage.files.local"
                (mkEntry "$.storage.files.local" false false)); auto.
    + eapply Permutation_in; [symmetry; exact Hperm|]. simpl. auto.
    + intros a' Hin' Hpat.
      apply (Permutation_in _ Hperm) in Hin'. simpl in Hin'.
      destruct Hin' as [<-|[<-|[]]]; [discriminate Hpat|reflexivity].
Qed.

End SortedPolicy.

(** C5, on the options of the test both-types/absolute-wins. *)
Lemma isOverwrite_absolute_wins_witness :
  isOverwrite pol_both_types "$.storage.files.local" = false.
Proof.
  apply (proj1 (isOverwrite_absolute_wins insertionSortCmpFunc
                  insertionSortCmpFunc_sorts)
           opts_both_types pol_both_types "$.storage.files.local"
           (mkEntry "$.storage.files.local" false false)
           (mkEntry ".local" true true)).
  - reflexivity.
  - simpl. auto.
  - reflexivity.
  - reflexivity.
  - simpl. auto.
  - reflexivity.
  - reflexivity.
  - intros a' [<-|[<-|[]]] Hpat; [reflexivity|discriminate Hpat].
Defined.

(** C2: the same bare pattern declared both overwrite and append is
    accepted: [addPolicy] compares the pattern as passed with the stored,
    rewritten patterns, so both entries end up in the policy set under the
    pattern [$.foo], one of each kind, and nothing panics. *)
Theorem conflicting_bare_patterns_accepted :
  addPolicy [mkEntry "$.foo" true false] "foo" false
    = Some [mkEntry "$.foo" true false; mkEntry "$.foo" false false] /\
  policyOf opts_foo_twice = Some pol_foo_twice /\
  In (mkEntry "$.foo" true false) (overwrite pol_foo_twice) /\
  In (mkEntry "$.foo" false false) (overwrite pol_foo_twice) /\
  isOverwrite pol_foo_twice "$.foo" = true.
Proof.
  repeat split; try reflexivity; simpl; auto.
Qed.

(** ** Document merger: the loop and its body *)

Lemma mergeValue_Map m dst src ctxpath :
  mergeValue m dst (Map src) ctxpath = mergeMapping m dst src ctxpath.
Proof. reflexivity. Qed.

Lemma mergeMapping_nil m dst ctxpath : mergeMapping m dst [] ctxpath = Ok dst.
Proof. reflexivity. Qed.

Lemma mergeMapping_cons m dst key sv rest ctxpath :
  mergeMapping m dst ((key, sv) :: rest) ctxpath =
  (dst' <- mergeStep m dst ctxpath key sv ;; mergeMapping m dst' rest ctxpath).
Proof. reflexivity. Qed.

Lemma mergeMapping_app m dst pre post ctxpath :
  mergeMapping m dst (pre ++ post) ctxpath =
  (dst' <- mergeMapping m dst pre ctxpath ;; mergeMapping m dst' post ctxpath).
Proof.
  revert dst. induction pre as [|[key sv] pre IH]; intros dst; [reflexivity|].
  simpl app. rewrite !mergeMapping_cons.
  destruct (mergeStep m dst ctxpath key sv) as [dst'|e]; simpl; [apply IH|reflexivity].
Qed.

(** The sequence case of the loop body, by the state of the destination. *)
Lemma mergeStep_Seq m dst ctxpath key svl :
  mergeStep m dst ctxpath key (Seq svl) =
  match lookup dst key with
  | None => Ok (store dst key (Seq svl))
  | Some (Seq dvv) =>
      Ok (store dst key
            (if isOverwrite m ctxpath then Seq svl else Seq (dvv ++ svl)))
  | Some dv => Err (ErrMismatch (ctxpath ++ "." ++ key) TSlice (typeOf dv))
  end.
Proof.
  unfold mergeStep, mergeKey.
  destruct (lookup dst key) as [[dvv|d|s]|]; simpl; try reflexivity.
  destruct (isOverwrite m ctxpath); reflexivity.
Qed.

(** The mapping case of the loop body. *)
Lemma mergeStep_Map m dst ctxpath key src :
  mergeStep m dst ctxpath key (Map src) =
  match lookup dst key with
  | None =>
      dv' <- mergeMapping m [] src (ctxpath ++ "." ++ key) ;;
      Ok (store dst key (Map dv'))
  | Some (Map dvv) =>
      dvv' <- mergeMapping m dvv src (ctxpath ++ "." ++ key) ;;
      Ok (store dst key (Map dvv'))
  | Some dv => Err (ErrMismatch (ctxpath ++ "." ++ key) TMap (typeOf dv))
  end.
Proof.
  unfold mergeStep, mergeKey.
  destruct (lookup dst key) as [[dvv|d|s]|]; reflexivity.
Qed.

(** The scalar case of the loop body. *)
Lemma mergeStep_Scalar m dst ctxpath key s :
  mergeStep m dst ctxpath key (Scalar s) =
  match lookup dst key with
  | None => Ok (store dst key (Scalar s))
  | Some dv =>
      if deepEqual s dv then Ok dst
      else if isOverwrite m ctxpath then Ok (store dst key (Scalar s))
      else Err (ErrDuplicateKeys (ctxpath ++ "." ++ key))
  end.
Proof.
  unfold mergeStep, mergeKey.
  destruct (lookup dst key) as [dv|]; simpl; [|reflexivity].
  destruct (deepEqual s dv); [reflexivity|].
  destruct (isOverwrite m ctxpath); reflexivity.
Qed.

(** An iteration touches no key but its own. *)
Lemma mergeStep_lookup_other m dst ctxpath key sv dst' k :
  mergeStep m dst ctxpath key sv = Ok dst' -> key <> k ->
  lookup dst' k = lookup dst k.
Proof.
  intros H Hne. destruct sv as [svl|src|s].
  - rewrite mergeStep_Seq in H.
    destruct (lookup dst key) as [[dvv|d|s]|]; try discriminate;
      injection H as <-; now apply lookup_store_other.
  - rewrite mergeStep_Map in H.
    destruct (lookup dst key) as [[dvv|d|s]|]; try discriminate.
    + destruct (mergeMapping m d src _); [|discriminate].
      injection H as <-. now apply lookup_store_other.
    + destruct (mergeMapping m [] src _); [|discriminate].
      injection H as <-. now apply lookup_store_other.
  - rewrite mergeStep_Scalar in H.
    destruct (lookup dst key) as [dv|].
    + destruct (deepEqual s dv); [now injection H as <-|].
      destruct (isOverwrite m ctxpath); [|discriminate].
      injection H as <-. now apply lookup_store_other.
    + injection H as <-. now apply lookup_store_other.
Qed.

Lemma mergeMapping_lookup_other m dst src ctxpath dst' k :
  mergeMapping m dst src ctxpath = Ok dst' -> ~ In k (keys src) ->
  lookup dst' k = lookup dst k.
Proof.
  revert dst. induction src as [|[key sv] src IH]; intros dst H Hni.
  - now injection H as <-.
  - rewrite mergeMapping_cons in H.
    destruct (mergeStep m dst ctxpath key sv) as [d1|] eqn:Hstep; [|discriminate].
    simpl in H, Hni. rewrite (IH d1 H) by tauto.
    eapply mergeStep_lookup_other; [exact Hstep|tauto].
Qed.

(** Induction on documents: the elements of a sequence and the values of
    a mapping come with the induction hypothesis. *)
Lemma value_induction (P : value -> Prop) :
  (forall elems, Forall P elems -> P (Seq elems)) ->
  (forall entries, Forall (fun kv => P (snd kv)) entries -> P (Map entries)) ->
  (forall s, P (Scalar s)) ->
  forall v, P v.
Proof.
  intros Hseq Hmap Hsc. fix IH 1. intros [elems|entries|s].
  - apply Hseq. induction elems as [|v elems IHl]; constructor; [apply IH|exact IHl].
  - apply Hmap. induction entries as [|[k v] entries IHl]; constructor;
      [apply IH|exact IHl].
  - apply Hsc.
Qed.

(** ** Document merger: sequences *)

Lemma mergeStep_not_SeqDuplicated m dst ctxpath key sv cp :
  (forall d c, mergeValue m d sv c <> Err (ErrSeqDuplicated cp)) ->
  mergeStep m dst ctxpath key sv <> Err (ErrSeqDuplicated cp).
Proof.
  intros IH. destruct sv as [svl|src|s].
  - rewrite mergeStep_Seq.
    destruct (lookup dst key) as [[dvv|d|s]|]; discriminate.
  - rewrite mergeStep_Map.
    destruct (lookup dst key) as [[dvv|d|s]|]; try discriminate.
    + specialize (IH d (ctxpath ++ "." ++ key)%string).
      rewrite mergeValue_Map in IH.
      destruct (mergeMapping m d src _); simpl; [discriminate|exact IH].
    + specialize (IH [] (ctxpath ++ "." ++ key)%string).
      rewrite mergeValue_Map in IH.
      destruct (mergeMapping m [] src _); simpl; [discriminate|exact IH].
  - rewrite mergeStep_Scalar.
    destruct (lookup dst key) as [dv|]; [|discriminate].
    destruct (deepEqual s dv); [discriminate|].
    destruct (isOverwrite m ctxpath); discriminate.
Qed.

Lemma mergeValue_not_SeqDuplicated m cp (src : value) :
  forall dst ctxpath, mergeValue m dst src ctxpath <> Err (ErrSeqDuplicated cp).
Proof.
  induction src as [elems _|entries IH|s] using value_induction;
    try discriminate.
  intros dst ctxpath. rewrite mergeValue_Map. revert dst.
  induction IH as [|[key sv] entries Hsv _ IHentries]; intros dst.
  - discriminate.
  - rewrite mergeMapping_cons.
    pose proof (mergeStep_not_SeqDuplicated m dst ctxpath key sv cp Hsv) as Hstep.
    destruct (mergeStep m dst ctxpath key sv) as [d1|e]; simpl.
    + apply IHentries.
    + exact Hstep.
Qed.

(** C9: for a source value that is a sequence the loop body inserts it
    (key absent), concatenates or replaces (destination is a sequence) or
    reports a mismatch (destination is anything else); the error "key
    duplicated (overrwrite=false)" of the fourth case is never the error of
    [mergeMapping], at any depth. *)
Theorem sequence_duplicated_unreachable :
  (forall m dst ctxpath key svl,
      mergeStep m dst ctxpath key (Seq svl) =
      match lookup dst key with
      | None => Ok (store dst key (Seq svl))
      | Some (Seq dvv) =>
          Ok (store dst key
                (if isOverwrite m ctxpath then Seq svl else Seq (dvv ++ svl)))
      | Some dv => Err (ErrMismatch (ctxpath ++ "." ++ key) TSlice (typeOf dv))
      end) /\
  (forall m dst src ctxpath cpath,
      mergeMapping m dst src ctxpath <> Err (ErrSeqDuplicated cpath)).
Proof.
  split.
  - apply mergeStep_Seq.
  - intros m dst src ctxpath cpath.
    rewrite <- mergeValue_Map. apply mergeValue_not_SeqDuplicated.
Qed.

(** C6: the options make overwrite the default and declare the append
    pattern [$.list], so that the policy of the key [list] is append, and
    [{list: [1, 2]}] is merged with [{list: [3]}].  The sequence case asks
    [isOverwrite] the path [$] of the enclosing mapping, the answer is the
    default, and the result is [{list: [3]}], not the concatenation
    [{list: [1, 2, 3]}].  The same one level down: with the append pattern
    [$.a.list], [{a: {list: [1, 2]}}] merged with [{a: {list: [3]}}] gives
    [{a: {list: [3]}}], the path asked being [$.a]. *)
Theorem append_pattern_of_key_not_consulted :
  policyOf opts_append_list = Some pol_append_list /\
  isOverwrite pol_append_list "$.list" = false /\
  isOverwrite pol_append_list "$" = true /\
  mergeMapping pol_append_list doc_list12 doc_list3 "$" = Ok doc_list3 /\
  policyOf opts_append_nested = Some pol_append_nested /\
  isOverwrite pol_append_nested "$.a.list" = false /\
  isOverwrite pol_append_nested "$.a" = true /\
  mergeMapping pol_append_nested doc_a_list12 doc_a_list3 "$" = Ok doc_a_list3.
Proof. repeat split. Qed.

(** X19: where destination and source both hold a sequence at a key of
    the mapping being merged and [isOverwrite], asked the context path of
    that mapping, answers false, the iteration for the key succeeds and
    stores the destination's elements, in their order, followed by the
    source's elements, in their order; that is the value at the key when
    the merge of the mapping returns.  [{list: [1, 2]}] then [{list: [3]}]
    under the defaults gives [{list: [1, 2, 3]}]. *)
Theorem sequence_append_in_order :
  (forall m dst src ctxpath key svl dvv,
      NoDup (keys src) ->
      In (key, Seq svl) src ->
      lookup dst key = Some (Seq dvv) ->
      isOverwrite m ctxpath = false ->
      (forall dst1, lookup dst1 key = Some (Seq dvv) ->
                    mergeStep m dst1 ctxpath key (Seq svl)
                      = Ok (store dst1 key (Seq (dvv ++ svl)))) /\
      (forall dst', mergeMapping m dst src ctxpath = Ok dst' ->
                    lookup dst' key = Some (Seq (dvv ++ svl)))) /\
  mergeMapping pol_default doc_list12 doc_list3 "$"
    = Ok [("list", ints [1; 2; 3]%Z)].
Proof.
  split; [|reflexivity].
  intros m dst src ctxpath key svl dvv Hnd Hin Hlk How.
  assert (Hstep : forall dst1, lookup dst1 key = Some (Seq dvv) ->
                    mergeStep m dst1 ctxpath key (Seq svl)
                      = Ok (store dst1 key (Seq (dvv ++ svl)))).
  { intros dst1 H1. now rewrite mergeStep_Seq, H1, How. }
  split; [exact Hstep|].
  intros dst' H.
  destruct (in_split _ _ Hin) as (pre & post & ->).
  unfold keys in Hnd. rewrite map_app in Hnd. simpl in Hnd.
  pose proof (NoDup_remove_2 _ _ _ Hnd) as Hni.
  rewrite mergeMapping_app in H.
  destruct (mergeMapping m dst pre ctxpath) as [dst1|] eqn:Hpre; [|discriminate].
  cbn [bind] in H.
  assert (H1 : lookup dst1 key = Some (Seq dvv)).
  { rewrite (mergeMapping_lookup_other _ _ _ _ _ key Hpre); [exact Hlk|].
    intros Hk. apply Hni, in_or_app. now left. }
  rewrite mergeMapping_cons, (Hstep dst1 H1) in H. cbn [bind] in H.
  rewrite (mergeMapping_lookup_other _ _ _ _ _ key H).
  - apply lookup_store_same.
  - intros Hk. apply Hni, in_or_app. now right.
Qed.

(** X19 on [{list: [1, 2]}] and [{list: [3]}] under the default policy. *)
Lemma sequence_append_in_order_witness :
  (forall dst1, lookup dst1 "list" = Some (ints [1; 2]%Z) ->
                mergeStep pol_default dst1 "$" "list" (ints [3]%Z)
                  = Ok (store dst1 "list" (ints [1; 2; 3]%Z))) /\
  (forall dst', mergeMapping pol_default doc_list12 doc_list3 "$" = Ok dst' ->
                lookup dst' "list" = Some (ints [1; 2; 3]%Z)).
Proof.
  apply (proj1 sequence_append_in_order pol_default doc_list12 doc_list3 "$"
           "list" [Scalar (Int 3)] [Scalar (Int 1); Scalar (Int 2)]).
  - repeat constructor. simpl. tauto.
  - simpl. auto.
  - reflexivity.
  - reflexivity.
Defined.

(** ** Document merger: scalars *)

(** C8: a source scalar deeply equal to the value the destination holds
    at the key leaves the destination as it is and is no error, whatever
    the policy; the merge goes on with the remaining keys.  [{a: 1}] merged
    with [{a: 1}] is [{a: 1}]. *)
Theorem equal_scalar_is_noop :
  (forall m dst ctxpath key s dv,
      lookup dst key = Some dv ->
      deepEqual s dv = true ->
      mergeStep m dst ctxpath key (Scalar s) = Ok dst /\
      forall rest,
        mergeMapping m dst ((key, Scalar s) :: rest) ctxpath
          = mergeMapping m dst rest ctxpath) /\
  (forall m, mergeMapping m doc_a_1 doc_a_1 "$" = Ok doc_a_1).
Proof.
  split; [|reflexivity].
  intros m dst ctxpath key s dv Hlk Heq.
  assert (Hstep : mergeStep m dst ctxpath key (Scalar s) = Ok dst).
  { now rewrite mergeStep_Scalar, Hlk, Heq. }
  split; [exact Hstep|].
  intros rest. now rewrite mergeMapping_cons, Hstep.
Qed.

(** C8 on [{a: 1}] and [{a: 1}] under the overwrite default. *)
Lemma equal_scalar_is_noop_witness :
  mergeStep pol_default_overwrite doc_a_1 "$" "a" (Scalar (Int 1)) = Ok doc_a_1 /\
  forall rest,
    mergeMapping pol_default_overwrite doc_a_1 (("a", Scalar (Int 1)) :: rest) "$"
      = mergeMapping pol_default_overwrite doc_a_1 rest "$".
Proof.
  apply (proj1 equal_scalar_is_noop pol_default_overwrite doc_a_1 "$" "a"
           (Int 1) (Scalar (Int 1))).
  - reflexivity.
  - reflexivity.
Defined.

(** ** Document merger: structural kinds *)

(** C3, as stated, fails: a source scalar met by a destination sequence
    is not a mismatch.  Under the overwrite default [{a: [1]}] merged with
    [{a: x}] succeeds and gives [{a: x}]; under the default policy the
    error is the duplicate-key error. *)
Lemma scalar_over_sequence_is_no_mismatch :
  lookup doc_a_seq "a" = Some (Seq [Scalar (Int 1)]) /\
  lookup doc_a_x "a" = Some (Scalar (Str "x")) /\
  mergeMapping pol_default_overwrite doc_a_seq doc_a_x "$" = Ok doc_a_x /\
  mergeMapping pol_default doc_a_seq doc_a_x "$" = Err (ErrDuplicateKeys "$.a") /\
  ~ (exists srcT dstT,
        mergeMapping pol_default_overwrite doc_a_seq doc_a_x "$"
          = Err (ErrMismatch "$.a" srcT dstT)).
Proof.
  repeat split; try reflexivity.
  intros (srcT & dstT & H). discriminate H.
Qed.

(** C3, amended: when the loop reaches a key that the destination holds
    and the source value is a sequence met by a non-sequence, or a mapping
    met by a non-mapping, the merge fails with the mismatch error for the
    context path of that key and both kinds, whatever the policy; a source
    scalar met by a sequence or a mapping is no mismatch: it replaces the
    destination under an overwrite policy and is a duplicate-key error
    otherwise.  [{a: [1]}] merged with [{a: {b: 1}}] fails at [$.a]. *)
Theorem structural_mismatch_detected :
  (forall m dst ctxpath pre key sv post dst1 dv,
      mergeMapping m dst pre ctxpath = Ok dst1 ->
      lookup dst1 key = Some dv ->
      structuralMismatch sv dv = true ->
      mergeMapping m dst (pre ++ (key, sv) :: post) ctxpath
        = Err (ErrMismatch (ctxpath ++ "." ++ key) (typeOf sv) (typeOf dv))) /\
  (forall m dst ctxpath key s dv,
      lookup dst key = Some dv ->
      typeOf dv = TSlice \/ typeOf dv = TMap ->
      mergeStep m dst ctxpath key (Scalar s) =
      if isOverwrite m ctxpath then Ok (store dst key (Scalar s))
      else Err (ErrDuplicateKeys (ctxpath ++ "." ++ key))) /\
  (forall m, mergeMapping m doc_a_seq doc_a_map "$"
             = Err (ErrMismatch "$.a" TMap TSlice)).
Proof.
  split; [|split; [|reflexivity]].
  - intros m dst ctxpath pre key sv post dst1 dv Hpre Hlk Hmis.
    rewrite mergeMapping_app, Hpre. cbn [bind].
    rewrite mergeMapping_cons.
    destruct sv as [svl|src|s]; [| |discriminate Hmis].
    + rewrite mergeStep_Seq, Hlk.
      destruct dv as [dvv|d|s]; [discriminate Hmis|reflexivity|reflexivity].
    + rewrite mergeStep_Map, Hlk.
      destruct dv as [dvv|d|s]; [reflexivity|discriminate Hmis|reflexivity].
  - intros m dst ctxpath key s dv Hlk Hty.
    rewrite mergeStep_Scalar, Hlk.
    destruct dv as [dvv|d|[x|z|b|]]; simpl; try reflexivity;
      destruct Hty as [Hty|Hty]; discriminate Hty.
Qed.

(** C3 amended, on [{a: [1]}] and [{a: {b: 1}}] under the overwrite
    default. *)
Lemma structural_mismatch_detected_witness :
  mergeMapping pol_default_overwrite doc_a_seq
    ([] ++ ("a", Map [("b", Scalar (Int 1))]) :: []) "$"
  = Err (ErrMismatch "$.a" TMap TSlice).
Proof.
  apply (proj1 structural_mismatch_detected pol_default_overwrite doc_a_seq "$"
           [] "a" (Map [("b", Scalar (Int 1))]) [] doc_a_seq
           (Seq [Scalar (Int 1)])).
  - reflexivity.
  - reflexivity.
  - reflexivity.
Defined.

(** ** Document merger: the path the policy is asked *)

(** For sequences and scalars the loop body depends on the policy only
    through its answer for the context path of the mapping being merged;
    its answer for the path of the key plays no part. *)
Lemma mergeStep_asks_parent_path m m' dst ctxpath key sv :
  (forall src, sv <> Map src) ->
  isOverwrite m ctxpath = isOverwrite m' ctxpath ->
  mergeStep m dst ctxpath key sv = mergeStep m' dst ctxpath key sv.
Proof.
  intros Hsv Heq. destruct sv as [svl|src|s].
  - now rewrite !mergeStep_Seq, Heq.
  - now destruct (Hsv src).
  - now rewrite !mergeStep_Scalar, Heq.
Qed.

Lemma HasPrefix_app (pre s : string) : HasPrefix (pre ++ s) pre = true.
Proof.
  unfold HasPrefix. apply andb_true_intro. split.
  - apply Nat.leb_le. induction pre; simpl; lia.
  - apply String.eqb_eq. induction pre as [|c pre IH]; simpl.
    + now destruct s.
    + now rewrite IH.
Qed.

Lemma addPolicy_normalized l pat pol l' :
  addPolicy l pat pol = Some l' -> Forall normalized l -> Forall normalized l'.
Proof.
  unfold addPolicy. destruct (existsb _ l); [discriminate|].
  intros [= <-] Hl. apply Forall_app. split; [exact Hl|].
  constructor; [|constructor]. unfold normalized. simpl.
  destruct (HasPrefix pat ".") eqn:H1; simpl; [now left|].
  destruct (HasPrefix pat "$.") eqn:H2; simpl; [now right|].
  right. apply (HasPrefix_app "$." pat).
Qed.

Lemma addPolicies_normalized pats pol l l' :
  addPolicies l pats pol = Some l' -> Forall normalized l -> Forall normalized l'.
Proof.
  revert l. induction pats as [|p pats IH]; simpl; intros l H Hl.
  - now injection H as <-.
  - destruct (addPolicy l p pol) as [l1|] eqn:H1; [|discriminate].
    eapply IH; [exact H|]. eapply addPolicy_normalized; eassumption.
Qed.

(** No stored pattern matches the path of the document root. *)
Lemma entry_match_root e : normalized e -> entry_match e "$" = false.
Proof.
  unfold normalized, entry_match, HasSuffix, HasPrefix.
  destruct (pattern e) as [|c1 [|c2 r]]; simpl.
  - intros [H|H]; discriminate H.
  - intros [H|H]; [|discriminate H].
    destruct (Ascii.eqb_spec c1 "."%char) as [E|E]; [|discriminate H].
    subst c1. now destruct (isRelative e).
  - intros _. rewrite andb_false_r. now destruct (Ascii.eqb c1 "$").
Qed.

Lemma firstMatch_root l : Forall normalized l -> firstMatch l "$" = None.
Proof.
  induction 1 as [|e l He _ IH]; simpl; [reflexivity|].
  now rewrite (entry_match_root e He).
Qed.

(** For the keys of the document root [isOverwrite] is asked the path
    [$], which no pattern matches: whatever the patterns, the answer is
    the default. *)
Lemma isOverwrite_root SortFunc (c : Options) (pol : mergePolicy) :
  (forall l, Permutation (SortFunc l policyCmp) l) ->
  buildPolicy SortFunc c = Some pol ->
  isOverwrite pol "$" = DefaultOverWrite c.
Proof.
  intros Hperm Hb.
  destruct (buildPolicy_overwrite _ _ _ Hb) as (ow1 & ow2 & H1 & H2 & Hov & Hdef).
  unfold isOverwrite. rewrite firstMatch_root; [exact Hdef|].
  rewrite Hov. eapply Permutation_Forall; [symmetry; apply Hperm|].
  eapply addPolicies_normalized; [exact H2|].
  eapply addPolicies_normalized; [exact H1|constructor].
Qed.

(** Two documents with one sequence each under the same top-level key:
    the patterns of the options never decide between replacing and
    concatenating, the default does. *)
Lemma top_level_sequence_ignores_patterns SortFunc c pol key dvv svl :
  (forall l, Permutation (SortFunc l policyCmp) l) ->
  buildPolicy SortFunc c = Some pol ->
  mergeMapping pol [(key, Seq dvv)] [(key, Seq svl)] "$" =
  Ok [(key, if DefaultOverWrite c then Seq svl else Seq (dvv ++ svl))].
Proof.
  intros Hperm Hb.
  rewrite mergeMapping_cons, mergeStep_Seq, (isOverwrite_root _ _ _ Hperm Hb).
  simpl. now rewrite String.eqb_refl.
Qed.

(** C1: the options declare the overwrite pattern [$.list], which
    matches the context path of the key [list], and [{list: [1, 2]}] is
    merged with [{list: [3]}].  The sequence case asks [isOverwrite] the
    path [$] of the enclosing mapping, not [$.list]; the answer is the
    default, and the result is the concatenation [{list: [1, 2, 3]}], not
    [{list: [3]}]. *)
Theorem overwrite_pattern_of_key_not_consulted :
  policyOf opts_overwrite_list = Some pol_overwrite_list /\
  isOverwrite pol_overwrite_list "$.list" = true /\
  isOverwrite pol_overwrite_list "$" = false /\
  mergeMapping pol_overwrite_list doc_list12 doc_list3 "$"
    = Ok [("list", ints [1; 2; 3]%Z)].
Proof. repeat split. Qed.

(** ** Merging files: the first error ends the merge *)

Section FirstError.

Variable SortFunc :
  list policyEntry -> (policyEntry -> policyEntry -> Z) -> list policyEntry.
Variable Join : string -> string -> string.
Variable Dir : string -> string.
Variable ReadFile : string -> result string.
Variable Unmarshal : string -> result (option mapping).
Variable Marshal : option mapping -> result string.



End FirstError.


(** The two sample files merged by [MergeFiles]: the overwrite pattern
    [$.list] leaves the result at the concatenation. *)
Lemma MergeFiles_overwrite_list Marshal :
  MergeFiles insertionSortCmpFunc joinClean sampleDir sampleReadFile
    sampleUnmarshal Marshal (Some opts_overwrite_list)
    ["one.yaml"; "two.yaml"]
  = Returns (Marshal (Some [("list", ints [1; 2; 3]%Z)])).
Proof. reflexivity. Qed.

(** No panic and no error on options that declare [foo] both overwrite
    and append. *)
Lemma MergeFiles_foo_twice Marshal :
  MergeFiles insertionSortCmpFunc joinClean sampleDir sampleReadFile
    sampleUnmarshal Marshal (Some opts_foo_twice) ["one.yaml"; "two.yaml"]
  = Returns (Marshal (Some [("list", ints [1; 2; 3]%Z)])).
Proof. reflexivity. Qed.

(** ** Path resolver *)

Section ResolveProps.

Variable Join : string -> string -> string.
Variable m : mergePolicy.

#[local] Abbreviation rpv := (resolvePathsValue Join m).
#[local] Abbreviation rp := (resolvePaths Join m).
#[local] Abbreviation after := (afterCall Join m).
#[local] Abbreviation returned := (returnedValue Join m).
#[local] Abbreviation rewritten := (reportsRewrite Join m).

Lemma rangeElems_spec rec v ctxpath updated :
  rangeElems rec v ctxpath updated =
  (map (fun vi => fst (rec vi ctxpath)) v,
   updated ++ map (fun vi => fst (snd (rec vi ctxpath)))
                  (filter (fun vi => snd (snd (rec vi ctxpath))) v)).
Proof.
  revert updated. induction v as [|vi v IH]; intros updated; simpl.
  - now rewrite app_nil_r.
  - destruct (rec vi ctxpath) as [vi' [upv ok]] eqn:E.
    rewrite IH. destruct ok; simpl; [|reflexivity].
    now rewrite E, <- app_assoc.
Qed.

Lemma filter_length_le {A} (f : A -> bool) l :
  (List.length (filter f l) <= List.length l)%nat.
Proof.
  induction l as [|x l IH]; simpl; [lia|]. destruct (f x); simpl; lia.
Qed.

Lemma filter_length_forallb {A} (f : A -> bool) l :
  Nat.eqb (List.length (filter f l)) (List.length l) = forallb f l.
Proof.
  induction l as [|x l IH]; simpl; [reflexivity|].
  destruct (f x); simpl; [exact IH|].
  pose proof (filter_length_le f l).
  apply Nat.eqb_neq. lia.
Qed.

Lemma resolvePathsValue_Seq elems fileRoot ctxpath :
  rpv (Seq elems) fileRoot ctxpath =
  (Seq (map (fun vi => after vi fileRoot ctxpath) elems),
   (Seq (map (fun vi => returned vi fileRoot ctxpath)
           (filter (fun vi => rewritten vi fileRoot ctxpath) elems)),
    forallb (fun vi => rewritten vi fileRoot ctxpath) elems)).
Proof.
  simpl. rewrite rangeElems_spec. simpl.
  now rewrite length_map, filter_length_forallb.
Qed.

Lemma resolvePathsValue_Map object fileRoot ctxpath :
  rpv (Map object) fileRoot ctxpath =
  (Map (rp object fileRoot ctxpath), (Scalar Null, false)).
Proof. reflexivity. Qed.

Lemma resolvePaths_cons k v rest fileRoot ctxpath :
  rp ((k, v) :: rest) fileRoot ctxpath =
  (k, resolvedSlot Join m v fileRoot (ctxpath ++ "." ++ k))
    :: rp rest fileRoot ctxpath.
Proof.
  unfold resolvePaths, resolvedSlot. cbn [rangeObject].
  destruct (rpv v fileRoot (ctxpath ++ "." ++ k)) as [v' [vv ok]]. reflexivity.
Qed.

Lemma lookup_resolvePaths object fileRoot ctxpath k :
  lookup (rp object fileRoot ctxpath) k =
  match lookup object k with
  | Some v => Some (resolvedSlot Join m v fileRoot (ctxpath ++ "." ++ k))
  | None => None
  end.
Proof.
  induction object as [|[k0 v] object IH]; [reflexivity|].
  rewrite resolvePaths_cons. simpl.
  destruct (String.eqb_spec k0 k) as [->|]; [reflexivity|exact IH].
Qed.

Lemma forallb_filter_all {A} (f : A -> bool) l :
  forallb f l = true -> filter f l = l.
Proof.
  induction l as [|x l IH]; simpl; [reflexivity|].
  destruct (f x); simpl; [|discriminate]. intros H. now rewrite IH.
Qed.

(** A value without mappings is not changed in place. *)
Lemma mapFree_after (v : value) :
  forall fileRoot ctxpath, mapFree v = true -> after v fileRoot ctxpath = v.
Proof.
  induction v as [elems IH|entries _|s] using value_induction;
    intros fileRoot ctxpath Hfree; unfold afterCall in *.
  - rewrite resolvePathsValue_Seq. simpl. f_equal.
    simpl in Hfree. rewrite forallb_forall in Hfree. rewrite Forall_forall in IH.
    rewrite <- (map_id elems) at 2. apply map_ext_in.
    intros vi Hin. apply IH; auto.
  - discriminate Hfree.
  - simpl. destruct s; try reflexivity.
    now destruct (resolvePath m ctxpath).
Qed.

(** A mapping never reports a rewrite. *)
Lemma rewritten_Map object fileRoot ctxpath :
  rewritten (Map object) fileRoot ctxpath = false.
Proof. reflexivity. Qed.

(** C10: the call on a sequence leaves every element as the call on
    that element leaves it; an element that is a mapping is left as
    [resolvePaths] leaves it, called with the context path of the
    sequence, so that a string under its key [k] is joined with the file
    root when the path extended by [k] is to be resolved; a sequence with
    a mapping among its elements reports no rewrite, and the key that
    holds it keeps the sequence with these elements. *)
Theorem mapping_elements_resolved_in_place :
  (forall elems fileRoot ctxpath,
      after (Seq elems) fileRoot ctxpath
        = Seq (map (fun vi => after vi fileRoot ctxpath) elems)) /\
  (forall object fileRoot ctxpath,
      after (Map object) fileRoot ctxpath = Map (rp object fileRoot ctxpath)) /\
  (forall object fileRoot ctxpath k s,
      lookup object k = Some (Scalar (Str s)) ->
      resolvePath m (ctxpath ++ "." ++ k) = true ->
      lookup (rp object fileRoot ctxpath) k
        = Some (Scalar (Str (Join fileRoot s)))) /\
  (forall elems object fileRoot ctxpath,
      In (Map object) elems ->
      rewritten (Seq elems) fileRoot ctxpath = false) /\
  (forall parent k elems object fileRoot ctxpath,
      lookup parent k = Some (Seq elems) ->
      In (Map object) elems ->
      lookup (rp parent fileRoot ctxpath) k
        = Some (Seq (map (fun vi => after vi fileRoot (ctxpath ++ "." ++ k))
                       elems)) /\
      In (Map (rp object fileRoot (ctxpath ++ "." ++ k)))
         (map (fun vi => after vi fileRoot (ctxpath ++ "." ++ k)) elems)).
Proof.
  assert (Hflag : forall elems object fileRoot ctxpath,
             In (Map object) elems ->
             rewritten (Seq elems) fileRoot ctxpath = false).
  { intros elems object fileRoot ctxpath Hin.
    unfold reportsRewrite at 1. rewrite resolvePathsValue_Seq. simpl.
    destruct (forallb _ elems) eqn:Hall; [|reflexivity].
    rewrite forallb_forall in Hall. now apply Hall in Hin. }
  repeat apply conj.
  - intros. unfold afterCall at 1. now rewrite resolvePathsValue_Seq.
  - reflexivity.
  - intros object fileRoot ctxpath k s Hlk Hres.
    rewrite lookup_resolvePaths, Hlk. unfold resolvedSlot.
    cbn [resolvePathsValue]. now rewrite Hres.
  - exact Hflag.
  - intros parent k elems object fileRoot ctxpath Hlk Hin. split.
    + rewrite lookup_resolvePaths, Hlk. unfold resolvedSlot.
      pose proof (Hflag elems object fileRoot (ctxpath ++ "." ++ k)%string Hin) as Hf.
      unfold reportsRewrite at 1 in Hf.
      rewrite resolvePathsValue_Seq in Hf |- *. cbn [fst snd] in Hf |- *.
      now rewrite Hf.
    + apply (in_map (fun vi => after vi fileRoot (ctxpath ++ "." ++ k))) in Hin.
      exact Hin.
Qed.

(** C7, amended: a sequence reports a rewrite exactly when every element
    does, and then returns the rewritten elements in their order; when
    some element reports none, the key keeps its sequence, each element as
    the call on it left it in place: a sequence without mappings is left
    untouched, a mapping among the elements is resolved all the same. *)
Theorem sequence_rewrite_all_or_nothing :
  (forall elems fileRoot ctxpath,
      rewritten (Seq elems) fileRoot ctxpath
        = forallb (fun vi => rewritten vi fileRoot ctxpath) elems) /\
  (forall elems fileRoot ctxpath,
      rewritten (Seq elems) fileRoot ctxpath = true ->
      returned (Seq elems) fileRoot ctxpath
        = Seq (map (fun vi => returned vi fileRoot ctxpath) elems)) /\
  (forall object k elems vi fileRoot ctxpath,
      lookup object k = Some (Seq elems) ->
      In vi elems ->
      rewritten vi fileRoot (ctxpath ++ "." ++ k) = false ->
      lookup (rp object fileRoot ctxpath) k
        = Some (Seq (map (fun vi => after vi fileRoot (ctxpath ++ "." ++ k))
                       elems))) /\
  (forall object k elems vi fileRoot ctxpath,
      lookup object k = Some (Seq elems) ->
      In vi elems ->
      rewritten vi fileRoot (ctxpath ++ "." ++ k) = false ->
      mapFree (Seq elems) = true ->
      lookup (rp object fileRoot ctxpath) k = Some (Seq elems)).
Proof.
  assert (Hslot : forall object k elems vi fileRoot ctxpath,
      lookup object k = Some (Seq elems) ->
      In vi elems ->
      rewritten vi fileRoot (ctxpath ++ "." ++ k) = false ->
      lookup (rp object fileRoot ctxpath) k
        = Some (after (Seq elems) fileRoot (ctxpath ++ "." ++ k))).
  { intros object k elems vi fileRoot ctxpath Hlk Hin Hfail.
    rewrite lookup_resolvePaths, Hlk. unfold resolvedSlot, afterCall.
    rewrite resolvePathsValue_Seq. cbn [fst snd].
    destruct (forallb _ elems) eqn:Hall; [|reflexivity].
    rewrite forallb_forall in Hall. apply Hall in Hin. congruence. }
  repeat apply conj.
  - intros. unfold reportsRewrite at 1. now rewrite resolvePathsValue_Seq.
  - intros elems fileRoot ctxpath.
    unfold reportsRewrite at 1, returnedValue at 1.
    rewrite resolvePathsValue_Seq. cbn [fst snd].
    intros Hall. now rewrite (forallb_filter_all _ _ Hall).
  - intros object k elems vi fileRoot ctxpath Hlk Hin Hfail.
    rewrite (Hslot _ _ _ _ _ _ Hlk Hin Hfail).
    unfold afterCall at 1. now rewrite resolvePathsValue_Seq.
  - intros object k elems vi fileRoot ctxpath Hlk Hin Hfail Hfree.
    rewrite (Hslot _ _ _ _ _ _ Hlk Hin Hfail).
    f_equal. now apply mapFree_after.
Qed.

End ResolveProps.

(** The document of the resolve-path test: the string under [local] is
    joined with the directory of its file, inside the sequence. *)
Lemma resolvePaths_doc_files :
  resolvePaths joinClean pol_resolve_local doc_files "host-dir" "$"
  = [("storage", Map [("files", Seq [file_entry_resolved])])] /\
  resolvePaths joinClean pol_resolve_local doc_files "common" "$"
  = [("storage",
      Map [("files",
            Seq [Map [("path", Scalar (Str "/etc/foo"));
                      ("contents",
                       Map [("local", Scalar (Str "common/foo.ign"))])]])])].
Proof. split; reflexivity. Qed.

(** C10 on the sequence under [$.storage.files] of [doc_files]. *)
Lemma mapping_elements_resolved_in_place_witness :
  lookup (resolvePaths joinClean pol_resolve_local
            [("files", Seq [file_entry])] "host-dir" "$.storage") "files"
    = Some (Seq [file_entry_resolved]) /\
  In file_entry_resolved [file_entry_resolved].
Proof.
  exact (proj2 (proj2 (proj2 (proj2
           (mapping_elements_resolved_in_place joinClean pol_resolve_local))))
           [("files", Seq [file_entry])] "files" [file_entry]
           [("path", Scalar (Str "/etc/foo"));
            ("contents", Map [("local", Scalar (Str "foo.ign"))])]
           "host-dir" "$.storage"
           eq_refl (or_introl eq_refl)).
Defined.

(** C7, as stated, fails: the sequence [[a.ign, {local: b.ign}]] under a
    key to be resolved holds an element that reports no rewrite (the
    mapping), yet it is not left untouched: its mapping is rewritten and
    its string is not, a partly rewritten sequence. *)
Lemma sequence_with_mapping_is_touched :
  reportsRewrite joinClean pol_resolve_local
    (Map [("local", Scalar (Str "b.ign"))]) "host-dir" "$.local" = false /\
  reportsRewrite joinClean pol_resolve_local (Seq mixed_seq)
    "host-dir" "$.local" = false /\
  resolvePaths joinClean pol_resolve_local doc_mixed "host-dir" "$"
    = [("local",
        Seq [Scalar (Str "a.ign");
             Map [("local", Scalar (Str "host-dir/b.ign"))]])] /\
  resolvePaths joinClean pol_resolve_local doc_mixed "host-dir" "$"
    <> doc_mixed.
Proof.
  repeat split. discriminate.
Qed.

(** C7 amended, on [doc_mixed] and on [doc_plain]. *)
Lemma sequence_rewrite_all_or_nothing_witness :
  lookup (resolvePaths joinClean pol_resolve_local doc_mixed "host-dir" "$")
    "local"
    = Some (Seq [Scalar (Str "a.ign");
                 Map [("local", Scalar (Str "host-dir/b.ign"))]]) /\
  lookup (resolvePaths joinClean pol_resolve_local doc_plain "host-dir" "$")
    "local" = Some (Seq plain_seq).
Proof.
  split.
  - exact (proj1 (proj2 (proj2
             (sequence_rewrite_all_or_nothing joinClean pol_resolve_local)))
             doc_mixed "local" mixed_seq
             (Map [("local", Scalar (Str "b.ign"))]) "host-dir" "$"
             eq_refl (or_intror (or_introl eq_refl)) eq_refl).
  - exact (proj2 (proj2 (proj2
             (sequence_rewrite_all_or_nothing joinClean pol_resolve_local)))
             doc_plain "local" plain_seq (Scalar (Int 5)) "host-dir" "$"
             eq_refl (or_intror (or_introl eq_refl)) eq_refl eq_refl).
Defined.

(* ================================================================== *)
(** * Further properties of the policy matcher *)

(** ** Strings *)

Lemma append_assoc (a b c : string) : ((a ++ b) ++ c = a ++ (b ++ c))%string.
Proof. induction a as [|x a IH]; simpl; [reflexivity|now rewrite IH]. Qed.

Lemma length_append (a b : string) :
  String.length (a ++ b) = (String.length a + String.length b)%nat.
Proof. induction a as [|x a IH]; simpl; [reflexivity|now rewrite IH]. Qed.

Lemma substring_whole (s : string) : substring 0 (String.length s) s = s.
Proof. induction s as [|x s IH]; simpl; [reflexivity|now rewrite IH]. Qed.

Lemma substring_prefix (pre s : string) :
  substring 0 (String.length pre) (pre ++ s) = pre.
Proof.
  induction pre as [|x pre IH]; simpl; [now destruct s|now rewrite IH].
Qed.

Lemma substring_suffix (pre s : string) :
  substring (String.length pre) (String.length s) (pre ++ s) = s.
Proof.
  induction pre as [|x pre IH]; simpl; [apply substring_whole|exact IH].
Qed.

Lemma substring_split (n : nat) (s : string) :
  (n <= String.length s)%nat ->
  (substring 0 n s ++ substring n (String.length s - n) s)%string = s.
Proof.
  revert n. induction s as [|x s IH]; intros n Hn; simpl in *.
  - now destruct n.
  - destruct n as [|n]; simpl.
    + now rewrite substring_whole.
    + rewrite IH by lia. reflexivity.
Qed.

Lemma HasPrefix_iff (s pre : string) :
  HasPrefix s pre = true <-> exists rest, s = (pre ++ rest)%string.
Proof.
  unfold HasPrefix. rewrite andb_true_iff, Nat.leb_le, String.eqb_eq. split.
  - intros [Hlen Hsub].
    exists (substring (String.length pre)
                      (String.length s - String.length pre) s).
    rewrite <- Hsub at 1. symmetry. now apply substring_split.
  - intros [rest ->]. split.
    + rewrite length_append. lia.
    + apply substring_prefix.
Qed.

Lemma HasSuffix_iff (s suf : string) :
  HasSuffix s suf = true <-> exists pre, s = (pre ++ suf)%string.
Proof.
  unfold HasSuffix. rewrite andb_true_iff, Nat.leb_le, String.eqb_eq. split.
  - intros [Hlen Hsub].
    exists (substring 0 (String.length s - String.length suf) s).
    pose proof (substring_split (String.length s - String.length suf) s) as H.
    replace (String.length s - (String.length s - String.length suf))%nat
      with (String.length suf) in H by lia.
    rewrite Hsub in H. symmetry. apply H. lia.
  - intros [pre ->]. split.
    + rewrite length_append. lia.
    + rewrite length_append.
      replace (String.length pre + String.length suf - String.length suf)%nat
        with (String.length pre) by lia.
      apply substring_suffix.
Qed.

(** ** Which paths an entry matches *)

(** X1: a relative entry matches exactly the context paths that end
    with its pattern, an absolute entry exactly the context path equal to
    its pattern. *)
Theorem entry_match_characterized (e : policyEntry) (p : string) :
  (isRelative e = true ->
   (entry_match e p = true <-> exists pre, p = (pre ++ pattern e)%string)) /\
  (isRelative e = false ->
   (entry_match e p = true <-> p = pattern e)).
Proof.
  unfold entry_match. split; intros ->; simpl.
  - destruct (HasSuffix p (pattern e)) eqn:Hs.
    + split; [intros _; now apply HasSuffix_iff|reflexivity].
    + destruct (String.eqb_spec (pattern e) p) as [<-|Hne].
      * split; [intros _; now exists ""|reflexivity].
      * split; [discriminate|]. intros Hex.
        apply HasSuffix_iff in Hex. congruence.
  - destruct (String.eqb_spec (pattern e) p) as [<-|Hne].
    + split; reflexivity.
    + split; [discriminate|congruence].
Qed.

(** X1 on the relative pattern [.files] and the path [$.storage.files],
    and on the absolute pattern [$.storage.files]. *)
Lemma entry_match_characterized_witness :
  (entry_match (mkEntry ".files" true true) "$.storage.files" = true <->
   exists pre, "$.storage.files" = (pre ++ ".files")%string) /\
  (entry_match (mkEntry "$.storage.files" true false) "$.storage.files" = true
   <-> "$.storage.files" = "$.storage.files").
Proof.
  split.
  - exact (proj1 (entry_match_characterized (mkEntry ".files" true true)
                    "$.storage.files") eq_refl).
  - exact (proj2 (entry_match_characterized
                    (mkEntry "$.storage.files" true false)
                    "$.storage.files") eq_refl).
Defined.

(** ** What [addPolicy] stores *)

Lemma addPolicy_entryFor l pat pol :
  addPolicy l pat pol =
  if existsb (conflicts pat pol) l then None
  else Some (l ++ [entryFor pat pol]).
Proof. reflexivity. Qed.

Lemma HasPrefix_dollar_dot (s : string) : HasPrefix ("$." ++ s) "." = false.
Proof. unfold HasPrefix. simpl. now destruct s. Qed.

Lemma normalizePattern_normalized pat pol : normalized (entryFor pat pol).
Proof.
  unfold normalized, entryFor, normalizePattern. simpl.
  destruct (HasPrefix pat ".") eqn:H1; simpl; [now left|].
  destruct (HasPrefix pat "$.") eqn:H2; simpl; [now right|].
  right. apply (HasPrefix_app "$." pat).
Qed.

Lemma addPolicies_shape pats pol acc r :
  addPolicies acc pats pol = Some r ->
  r = acc ++ map (fun pat => entryFor pat pol) pats.
Proof.
  revert acc. induction pats as [|pat pats IH]; simpl; intros acc H.
  - injection H as <-. now rewrite app_nil_r.
  - rewrite addPolicy_entryFor in H.
    destruct (existsb (conflicts pat pol) acc); [discriminate|].
    rewrite (IH _ H), <- app_assoc. reflexivity.
Qed.

Lemma no_conflict_same_kind pat pol l :
  (forall e, In e l -> policy e = pol) ->
  existsb (conflicts pat pol) l = false.
Proof.
  intros Hall. induction l as [|e l IH]; simpl; [reflexivity|].
  rewrite IH by (intros; apply Hall; now right).
  unfold conflicts. rewrite (Hall e) by now left.
  now rewrite Bool.eqb_reflx, andb_false_r.
Qed.

(** Patterns of one kind never conflict with each other. *)
Lemma addPolicies_same_kind pats pol acc :
  (forall e, In e acc -> policy e = pol) ->
  addPolicies acc pats pol
    = Some (acc ++ map (fun pat => entryFor pat pol) pats).
Proof.
  revert acc. induction pats as [|pat pats IH]; simpl; intros acc Hall.
  - now rewrite app_nil_r.
  - rewrite addPolicy_entryFor, (no_conflict_same_kind _ _ _ Hall).
    rewrite IH.
    + now rewrite <- app_assoc.
    + intros e Hin. apply in_app_or in Hin.
      destruct Hin as [Hin|[<-|[]]]; [now apply Hall|reflexivity].
Qed.

Lemma conflict_with_overwrite pat ts fs :
  (forall e, In e ts -> policy e = true) ->
  (forall e, In e fs -> policy e = false) ->
  existsb (conflicts pat false) (ts ++ fs) = true <->
  exists e, In e ts /\ pattern e = pat.
Proof.
  intros Hts Hfs. rewrite existsb_app, orb_true_iff.
  rewrite (no_conflict_same_kind pat false fs Hfs). split.
  - intros [H|H]; [|discriminate].
    apply existsb_exists in H. destruct H as (e & Hin & Hc).
    unfold conflicts in Hc. apply andb_true_iff in Hc.
    exists e. split; [exact Hin|]. now apply String.eqb_eq.
  - intros (e & Hin & <-). left. apply existsb_exists.
    exists e. split; [exact Hin|]. unfold conflicts.
    now rewrite String.eqb_refl, (Hts e Hin).
Qed.

(** The append patterns panic exactly when one of them is spelled like
    the stored pattern of an overwrite entry. *)
Lemma addPolicies_append_None pats ts fs :
  (forall e, In e ts -> policy e = true) ->
  (forall e, In e fs -> policy e = false) ->
  addPolicies (ts ++ fs) pats false = None <->
  exists pat e, In pat pats /\ In e ts /\ pattern e = pat.
Proof.
  intros Hts. revert fs. induction pats as [|pat pats IH]; intros fs Hfs; simpl.
  - split; [discriminate|]. intros (pat & e & [] & _).
  - rewrite addPolicy_entryFor.
    pose proof (conflict_with_overwrite pat ts fs Hts Hfs) as Hc.
    destruct (existsb (conflicts pat false) (ts ++ fs)).
    + split; [intros _|reflexivity].
      destruct (proj1 Hc eq_refl) as (e & Hin & Hp). exists pat, e. auto.
    + rewrite <- app_assoc, IH.
      * split.
        -- intros (pat' & e & Hin & He). exists pat', e. simpl. tauto.
        -- intros (pat' & e & [<-|Hin] & Hine & Hp).
           ++ assert (false = true) by (apply Hc; eauto). discriminate.
           ++ exists pat', e. auto.
      * intros e Hin. apply in_app_or in Hin.
        destruct Hin as [Hin|[<-|[]]]; [now apply Hfs|reflexivity].
Qed.

(** X2: [addPolicy] appends the entry of the pattern or panics.  A
    pattern that starts with [.] is stored as it is and is relative; one
    that starts with [$.] is stored as it is and is absolute; any other
    pattern is stored with [$.] in front and is absolute, so that a bare
    key name matches the key of that name at the document root only. *)
Theorem pattern_forms :
  (forall l pat pol r,
      addPolicy l pat pol = Some r -> r = l ++ [entryFor pat pol]) /\
  (forall pat pol,
      HasPrefix pat "." = true -> entryFor pat pol = mkEntry pat pol true) /\
  (forall pat pol,
      HasPrefix pat "$." = true -> entryFor pat pol = mkEntry pat pol false) /\
  (forall pat pol,
      HasPrefix pat "." = false -> HasPrefix pat "$." = false ->
      entryFor pat pol = mkEntry ("$." ++ pat) pol false /\
      forall p, entry_match (entryFor pat pol) p = String.eqb ("$." ++ pat) p).
Proof.
  repeat apply conj.
  - intros l pat pol r. rewrite addPolicy_entryFor.
    destruct (existsb _ l); [discriminate|]. now intros [= <-].
  - intros pat pol H. unfold entryFor, normalizePattern. rewrite H.
    cbn [negb andb]. now rewrite H.
  - intros pat pol H. unfold entryFor, normalizePattern. rewrite H.
    rewrite andb_false_r.
    apply HasPrefix_iff in H. destruct H as [rest ->].
    now rewrite (HasPrefix_dollar_dot rest).
  - intros pat pol H1 H2.
    assert (He : entryFor pat pol = mkEntry ("$." ++ pat) pol false).
    { unfold entryFor, normalizePattern. rewrite H1, H2. cbn [negb andb].
      now rewrite (HasPrefix_dollar_dot pat). }
    split; [exact He|].
    intros p. rewrite He. unfold entry_match. cbn [isRelative pattern andb].
    now destruct (String.eqb ("$." ++ pat) p).
Qed.

(** X2 on the bare pattern [foo]. *)
Lemma pattern_forms_witness :
  entryFor "foo" true = mkEntry "$.foo" true false /\
  forall p, entry_match (entryFor "foo" true) p = String.eqb "$.foo" p.
Proof.
  exact (proj2 (proj2 (proj2 pattern_forms)) "foo" true eq_refl eq_refl).
Defined.

(** X4: [buildPolicy] panics exactly when some append pattern is spelled
    like the stored form of some overwrite pattern; patterns for
    [ResolvePath] never make it panic, and neither does any list of
    overwrite patterns alone.  [MergeFiles] panics in these cases and in no
    other. *)
Theorem buildPolicy_panics_iff :
  forall SortFunc (c : Options),
    (buildPolicy SortFunc c = None <->
     exists po pa, In po (Overwrite c) /\ In pa (Append c) /\
                   normalizePattern po = pa) /\
    (forall Join Dir ReadFile Unmarshal Marshal path,
        MergeFiles SortFunc Join Dir ReadFile Unmarshal Marshal (Some c) path
          = Panics <->
        buildPolicy SortFunc c = None).
Proof.
  intros SortFunc c. split.
  - unfold buildPolicy.
    rewrite (addPolicies_same_kind (Overwrite c) true []) by (intros e []).
    rewrite (addPolicies_same_kind (ResolvePath c) true []) by (intros e []).
    cbn [app].
    assert (Hts : forall e,
               In e (map (fun pat => entryFor pat true) (Overwrite c)) ->
               policy e = true).
    { intros e Hin. apply in_map_iff in Hin. now destruct Hin as (x & <- & _). }
    pose proof (addPolicies_append_None (Append c)
                  (map (fun pat => entryFor pat true) (Overwrite c)) []
                  Hts ltac:(intros e [])) as H.
    rewrite app_nil_r in H.
    assert (Hex : (exists pat e, In pat (Append c) /\
                     In e (map (fun pat0 => entryFor pat0 true) (Overwrite c)) /\
                     pattern e = pat) <->
                  (exists po pa, In po (Overwrite c) /\ In pa (Append c) /\
                                 normalizePattern po = pa)).
    { split.
      - intros (pa & e & Hpa & Hin & Hp).
        apply in_map_iff in Hin. destruct Hin as (po & <- & Hpo).
        exists po, pa. auto.
      - intros (po & pa & Hpo & Hpa & Hn).
        exists pa, (entryFor po true). repeat split; [exact Hpa| |exact Hn].
        apply in_map_iff. eauto. }
    rewrite <- Hex, <- H.
    destruct (addPolicies _ (Append c) false) as [ow2|];
      split; try reflexivity; discriminate.
  - intros Join Dir ReadFile Unmarshal Marshal path. unfold MergeFiles.
    destruct (buildPolicy SortFunc c) as [pol|]; [|split; reflexivity].
    split; [|discriminate].
    destruct (rangePaths _ _ _ _ _ _ _); discriminate.
Qed.

(** X4 on the overwrite pattern [foo] and the append pattern [$.foo]. *)
Lemma buildPolicy_panics_iff_witness : policyOf opts_conflict = None.
Proof.
  exact (proj2 (proj1 (buildPolicy_panics_iff insertionSortCmpFunc
                         opts_conflict))
           (ex_intro _ "foo"
              (ex_intro _ "$.foo"
                 (conj (or_introl eq_refl)
                    (conj (or_introl eq_refl) eq_refl))))).
Defined.

(** ** The policy sets that [buildPolicy] returns *)

Lemma firstMatch_None l p :
  firstMatch l p = None <-> forall e, In e l -> entry_match e p = false.
Proof.
  induction l as [|x l IH]; simpl.
  - split; [intros _ e []|reflexivity].
  - destruct (entry_match x p) eqn:Hx.
    + split; [discriminate|]. intros H. specialize (H x (or_introl eq_refl)).
      congruence.
    + rewrite IH. split.
      * intros H e [<-|Hin]; auto.
      * intros H e Hin. apply H. now right.
Qed.

(** In a sorted set nothing that matches sorts strictly before the first
    match. *)
Lemma firstMatch_least l p e x :
  StronglySorted (fun a b => ~ policyLess b a) l ->
  firstMatch l p = Some e -> In x l -> entry_match x p = true ->
  ~ policyLess x e.
Proof.
  induction 1 as [|y l Hs IH Hall]; simpl; [discriminate|].
  destruct (entry_match y p) eqn:Hy.
  - intros [= <-] [<-|Hin] Hx.
    + intros H. exact (policyLess_asym _ _ H H).
    + rewrite Forall_forall in Hall. now apply Hall.
  - intros He [<-|Hin] Hx; [congruence|auto].
Qed.

Lemma policyLess_neither a b :
  ~ policyLess a b -> ~ policyLess b a ->
  isRelative a = isRelative b /\ pattern a = pattern b.
Proof.
  rewrite !policyLess_iff. intros Hab Hba.
  assert (Hpat : isRelative a = isRelative b -> pattern a = pattern b).
  { intros Hr.
    destruct (String.compare (pattern a) (pattern b)) eqn:Hc.
    - now apply String.compare_eq_iff.
    - exfalso. apply Hab. right. split; [exact Hr|reflexivity].
    - exfalso. apply Hba. right. split; [now symmetry|].
      rewrite String.compare_antisym, Hc. reflexivity. }
  destruct (isRelative a) eqn:Ha, (isRelative b) eqn:Hb.
  - split; [reflexivity|now apply Hpat].
  - exfalso. apply Hba. left. split; reflexivity.
  - exfalso. apply Hab. left. split; reflexivity.
  - split; [reflexivity|now apply Hpat].
Qed.

(** Two sorted sets with the same entries give the same first match up to
    the kind, when no pattern carries both kinds. *)
Lemma isOverwrite_sorted_perm l l' d p :
  StronglySorted (fun a b => ~ policyLess b a) l ->
  StronglySorted (fun a b => ~ policyLess b a) l' ->
  Permutation l l' ->
  (forall a b, In a l -> In b l -> pattern a = pattern b ->
               policy a = policy b) ->
  isOverwrite (mkPolicy l d []) p = isOverwrite (mkPolicy l' d []) p.
Proof.
  intros Hs Hs' Hperm Hcons. unfold isOverwrite. simpl.
  destruct (firstMatch l p) as [e|] eqn:He.
  - destruct (firstMatch_Some _ _ _ He) as [Hin Hm].
    destruct (firstMatch l' p) as [e'|] eqn:He'.
    + destruct (firstMatch_Some _ _ _ He') as [Hin' Hm'].
      apply (Permutation_in _ (Permutation_sym Hperm)) in Hin'.
      pose proof (firstMatch_least _ _ _ _ Hs He Hin' Hm') as H1.
      pose proof (firstMatch_least _ _ _ _ Hs' He'
                    (Permutation_in _ Hperm Hin) Hm) as H2.
      apply Hcons; [exact Hin|exact Hin'|].
      now destruct (policyLess_neither _ _ H2 H1).
    + rewrite firstMatch_None in He'.
      rewrite (He' e (Permutation_in _ Hperm Hin)) in Hm. discriminate.
  - destruct (firstMatch l' p) as [e'|] eqn:He'; [|reflexivity].
    destruct (firstMatch_Some _ _ _ He') as [Hin' Hm'].
    rewrite firstMatch_None in He.
    rewrite (He e' (Permutation_in _ (Permutation_sym Hperm) Hin')) in Hm'.
    discriminate.
Qed.

Section BuiltPolicy.

Variable SortFunc :
  list policyEntry -> (policyEntry -> policyEntry -> Z) -> list policyEntry.
Hypothesis SortFunc_sorts : sortsPolicies SortFunc.

Lemma buildPolicy_entries c pol :
  buildPolicy SortFunc c = Some pol ->
  Permutation (overwrite pol)
    (map (fun pat => entryFor pat true) (Overwrite c)
     ++ map (fun pat => entryFor pat false) (Append c)) /\
  resolvePaths_ pol = map (fun pat => entryFor pat true) (ResolvePath c) /\
  defaultOverwrite pol = DefaultOverWrite c.
Proof.
  unfold buildPolicy.
  destruct (addPolicies [] (Overwrite c) true) as [ow1|] eqn:H1; [|discriminate].
  destruct (addPolicies ow1 (Append c) false) as [ow2|] eqn:H2; [|discriminate].
  destruct (addPolicies [] (ResolvePath c) true) as [rp|] eqn:H3; [|discriminate].
  intros [= <-]. simpl.
  apply addPolicies_shape in H1, H2, H3. simpl in H1, H3. subst ow1 ow2 rp.
  repeat split. apply SortFunc_sorts.
Qed.

(** X3: the policy sets hold exactly the entries of the configured
    patterns, none dropped and none invented; every stored pattern starts
    with [.] or [$.], an entry is relative exactly when its pattern starts
    with [.], the conflict set is sorted with no relative entry before an
    absolute one, and the entries for [ResolvePath] keep the order of the
    options. *)
Theorem buildPolicy_sets :
  forall c pol,
    buildPolicy SortFunc c = Some pol ->
    (forall e, In e (overwrite pol) <->
               (exists pat, In pat (Overwrite c) /\ e = entryFor pat true) \/
               (exists pat, In pat (Append c) /\ e = entryFor pat false)) /\
    resolvePaths_ pol = map (fun pat => entryFor pat true) (ResolvePath c) /\
    (forall e, In e (overwrite pol) \/ In e (resolvePaths_ pol) ->
               normalized e /\ isRelative e = HasPrefix (pattern e) ".") /\
    (forall pre a mid b post,
        overwrite pol = pre ++ a :: mid ++ b :: post ->
        isRelative a = true -> isRelative b = true) /\
    defaultOverwrite pol = DefaultOverWrite c.
Proof.
  intros c pol Hb.
  destruct (buildPolicy_entries c pol Hb) as (Hperm & Hrp & Hdef).
  assert (Hin : forall e, In e (overwrite pol) <->
               (exists pat, In pat (Overwrite c) /\ e = entryFor pat true) \/
               (exists pat, In pat (Append c) /\ e = entryFor pat false)).
  { intros e. split.
    - intros H. apply (Permutation_in _ Hperm) in H.
      apply in_app_or in H. destruct H as [H|H]; apply in_map_iff in H;
        destruct H as (pat & <- & Hpat); [left|right]; eauto.
    - intros H. apply (Permutation_in _ (Permutation_sym Hperm)).
      apply in_or_app.
      destruct H as [(pat & Hpat & ->)|(pat & Hpat & ->)]; [left|right];
        apply in_map_iff; eauto. }
  repeat apply conj; [exact Hin|exact Hrp| | |exact Hdef].
  - intros e [H|H].
    + apply Hin in H.
      destruct H as [(pat & _ & ->)|(pat & _ & ->)];
        (split; [apply normalizePattern_normalized|reflexivity]).
    + rewrite Hrp in H. apply in_map_iff in H. destruct H as (pat & <- & _).
      split; [apply normalizePattern_normalized|reflexivity].
  - intros pre a mid b post Hsplit Ha.
    pose proof (buildPolicy_sorted SortFunc SortFunc_sorts c pol Hb) as Hs.
    rewrite Hsplit in Hs.
    assert (Hab : ~ policyLess b a).
    { clear -Hs. induction pre as [|x pre IH]; simpl in Hs.
      - apply StronglySorted_inv in Hs. destruct Hs as [_ Hall].
        rewrite Forall_forall in Hall. apply Hall.
        apply in_or_app. right. now left.
      - apply StronglySorted_inv in Hs. now apply IH. }
    destruct (isRelative b) eqn:Hrb; [reflexivity|].
    exfalso. apply Hab. now apply absolute_before_relative.
Qed.

(** X5: in which order the options list their patterns does not matter.
    Two configurations with the same overwrite patterns, the same append
    patterns and the same default, listed in any order, answer
    [isOverwrite] alike for every context path, provided no stored pattern
    carries both kinds. *)
Theorem isOverwrite_order_independent :
  forall c c' pol pol' p,
    Permutation (Overwrite c) (Overwrite c') ->
    Permutation (Append c) (Append c') ->
    DefaultOverWrite c = DefaultOverWrite c' ->
    buildPolicy SortFunc c = Some pol ->
    buildPolicy SortFunc c' = Some pol' ->
    (forall a b, In a (overwrite pol) -> In b (overwrite pol) ->
                 pattern a = pattern b -> policy a = policy b) ->
    isOverwrite pol p = isOverwrite pol' p.
Proof.
  intros c c' pol pol' p Ho Ha Hd Hb Hb' Hcons.
  destruct (buildPolicy_entries c pol Hb) as (Hperm & _ & Hdef).
  destruct (buildPolicy_entries c' pol' Hb') as (Hperm' & _ & Hdef').
  pose proof (buildPolicy_sorted SortFunc SortFunc_sorts c pol Hb) as Hs.
  pose proof (buildPolicy_sorted SortFunc SortFunc_sorts c' pol' Hb') as Hs'.
  assert (Hpp : Permutation (overwrite pol) (overwrite pol')).
  { rewrite Hperm, Hperm'. apply Permutation_app; now apply Permutation_map. }
  pose proof (isOverwrite_sorted_perm _ _ (DefaultOverWrite c) p
                Hs Hs' Hpp Hcons) as H.
  unfold isOverwrite in *. simpl in H.
  now rewrite Hdef, Hdef', <- Hd.
Qed.

(** X6: for the keys of the document root the policy is asked the path
    [$], which no stored pattern matches; the answer is the default, and
    the sequences and scalars at the root merge as under a policy without
    patterns. *)
Theorem root_keys_follow_default :
  forall c pol,
    buildPolicy SortFunc c = Some pol ->
    isOverwrite pol "$" = DefaultOverWrite c /\
    forall dst key sv,
      (forall src, sv <> Map src) ->
      mergeStep pol dst "$" key sv
        = mergeStep (mkPolicy [] (DefaultOverWrite c) []) dst "$" key sv.
Proof.
  intros c pol Hb.
  assert (H : isOverwrite pol "$" = DefaultOverWrite c).
  { apply (isOverwrite_root SortFunc c pol); [|exact Hb].
    intros l. apply SortFunc_sorts. }
  split; [exact H|].
  intros dst key sv Hsv. apply mergeStep_asks_parent_path; [exact Hsv|].
  now rewrite H.
Qed.

End BuiltPolicy.

(** X3 on the options of the test both-types/absolute-wins. *)
Lemma buildPolicy_sets_witness :
  In (mkEntry ".local" true true) (overwrite pol_both_types) <->
  (exists pat, In pat (Overwrite opts_both_types) /\
               mkEntry ".local" true true = entryFor pat true) \/
  (exists pat, In pat (Append opts_both_types) /\
               mkEntry ".local" true true = entryFor pat false).
Proof.
  exact (proj1 (buildPolicy_sets insertionSortCmpFunc
                  insertionSortCmpFunc_sorts
                  opts_both_types pol_both_types eq_refl)
           (mkEntry ".local" true true)).
Defined.

(** X5 on five patterns listed in two orders. *)
Lemma isOverwrite_order_independent_witness :
  isOverwrite pol_many "$.x.a.b" = isOverwrite pol_many_shuffled "$.x.a.b".
Proof.
  apply (isOverwrite_order_independent insertionSortCmpFunc
           insertionSortCmpFunc_sorts opts_many opts_many_shuffled).
  - apply (Permutation_cons_app ["$.k"] [".b"]). apply perm_swap.
  - apply perm_swap.
  - reflexivity.
  - reflexivity.
  - reflexivity.
  - intros a b Ha Hb. simpl in Ha, Hb.
    repeat match goal with
           | H : _ \/ _ |- _ => destruct H as [H|H]
           | H : False |- _ => destruct H
           end; subst; simpl; intros Hp; try reflexivity; discriminate Hp.
Defined.

(** X6 on the options with the overwrite pattern [$.list]. *)
Lemma root_keys_follow_default_witness :
  isOverwrite pol_overwrite_list "$" = false /\
  forall dst key sv,
    (forall src, sv <> Map src) ->
    mergeStep pol_overwrite_list dst "$" key sv
      = mergeStep (mkPolicy [] false []) dst "$" key sv.
Proof.
  exact (root_keys_follow_default insertionSortCmpFunc
           insertionSortCmpFunc_sorts opts_overwrite_list pol_overwrite_list
           eq_refl).
Defined.

(** X7: the comparison function that [buildPolicy] gives to
    [slices.SortFunc] is a strict weak ordering, as [slices.SortFunc]
    requires: an entry sorts before another exactly when it is absolute
    and the other relative, or both are of one sort and its pattern is the
    smaller; this is irreflexive and transitive, entries that compare
    equal have the same sort and the same pattern, and comparing the other
    way round negates the result. *)
Theorem policyCmp_strict_weak_order :
  (forall a b,
      (policyCmp a b < 0)%Z <->
      (isRelative a = false /\ isRelative b = true) \/
      (isRelative a = isRelative b /\
       String.compare (pattern a) (pattern b) = Lt)) /\
  (forall a, ~ (policyCmp a a < 0)%Z) /\
  (forall a b c,
      (policyCmp a b < 0)%Z -> (policyCmp b c < 0)%Z -> (policyCmp a c < 0)%Z) /\
  (forall a b c,
      (policyCmp a c < 0)%Z -> (policyCmp a b < 0)%Z \/ (policyCmp b c < 0)%Z) /\
  (forall a b,
      policyCmp a b = 0%Z <->
      isRelative a = isRelative b /\ pattern a = pattern b) /\
  (forall a b, policyCmp b a = (- policyCmp a b)%Z).
Proof.
  assert (Hanti : forall a b, policyCmp b a = (- policyCmp a b)%Z).
  { intros a b. unfold policyCmp, compareBool, cmp_Compare. simpl.
    rewrite (String.compare_antisym (pattern b) (pattern a)).
    destruct (isRelative a), (isRelative b); simpl;
      destruct (String.compare (pattern a) (pattern b)); reflexivity. }
  repeat apply conj.
  - intros a b. apply policyLess_iff.
  - intros a H. exact (policyLess_asym a a H H).
  - intros a b c Hab Hbc.
    destruct (policyLess_negtrans a c b Hab) as [H|H]; [exact H|].
    destruct (policyLess_asym _ _ Hbc H).
  - intros a b c. apply policyLess_negtrans.
  - intros a b. split.
    + intros H0. apply policyLess_neither; unfold policyLess.
      * lia.
      * rewrite Hanti. lia.
    + intros [Hr Hp]. unfold policyCmp, compareBool, cmp_Compare. simpl.
      rewrite Hr, Hp, Bool.eqb_reflx.
      destruct (String.compare (pattern b) (pattern b)) eqn:Hc;
        [reflexivity| |];
        pose proof (String.compare_antisym (pattern b) (pattern b)) as Ha;
        rewrite Hc in Ha; discriminate Ha.
  - exact Hanti.
Qed.

(** X7 on the entries for [$.a], [$.b] and [.a]. *)
Lemma policyCmp_strict_weak_order_witness :
  (policyCmp (mkEntry "$.a" true false) (mkEntry ".a" false true) < 0)%Z.
Proof.
  apply (proj1 (proj2 (proj2 policyCmp_strict_weak_order))
           (mkEntry "$.a" true false) (mkEntry "$.b" false false)
           (mkEntry ".a" false true)).
  - reflexivity.
  - reflexivity.
Defined.

(* ================================================================== *)
(** * Further properties of the document merger *)

(** ** Maps as association lists *)

Lemma lookup_None_iff (d : mapping) (k : string) :
  lookup d k = None <-> ~ In k (keys d).
Proof.
  induction d as [|[k0 v] d IH]; simpl; [tauto|].
  destruct (String.eqb_spec k0 k) as [->|Hne].
  - split; [discriminate|]. intros H. exfalso. apply H. now left.
  - rewrite IH. tauto.
Qed.

Lemma lookup_app (a b : mapping) (k : string) :
  lookup (a ++ b) k =
  match lookup a k with Some v => Some v | None => lookup b k end.
Proof.
  induction a as [|[k0 v] a IH]; simpl; [reflexivity|].
  now destruct (String.eqb k0 k).
Qed.

Lemma store_absent (d : mapping) (k : string) (v : value) :
  lookup d k = None -> store d k v = d ++ [(k, v)].
Proof.
  induction d as [|[k0 w] d IH]; simpl; [reflexivity|].
  destruct (String.eqb k0 k); [discriminate|]. intros H. now rewrite IH.
Qed.

Lemma store_same (d : mapping) (k : string) (v : value) :
  lookup d k = Some v -> store d k v = d.
Proof.
  induction d as [|[k0 w] d IH]; simpl; [discriminate|].
  destruct (String.eqb_spec k0 k) as [->|Hne].
  - now intros [= ->].
  - intros H. now rewrite IH.
Qed.

Lemma keys_store_present (d : mapping) (k : string) (v w : value) :
  lookup d k = Some w -> keys (store d k v) = keys d.
Proof.
  induction d as [|[k0 u] d IH]; simpl; [discriminate|].
  destruct (String.eqb_spec k0 k) as [->|Hne]; simpl; [reflexivity|].
  intros H. f_equal. now apply IH.
Qed.

Lemma keys_store (d : mapping) (k : string) (v : value) :
  keys (store d k v) =
  match lookup d k with Some _ => keys d | None => keys d ++ [k] end.
Proof.
  destruct (lookup d k) as [w|] eqn:H.
  - now apply keys_store_present with w.
  - rewrite (store_absent _ _ _ H). unfold keys. now rewrite map_app.
Qed.

Lemma In_store (d : mapping) (k k' : string) (v v' : value) :
  In (k', v') (store d k v) -> (k' = k /\ v' = v) \/ In (k', v') d.
Proof.
  induction d as [|[k0 w] d IH]; simpl.
  - intros [[= <- <-]|[]]. now left.
  - destruct (String.eqb_spec k0 k) as [->|Hne]; simpl.
    + intros [[= <- <-]|H]; auto.
    + intros [H|H]; [auto|]. destruct (IH H); auto.
Qed.

Lemma lookup_Some_In (d : mapping) (k : string) (v : value) :
  lookup d k = Some v -> In (k, v) d.
Proof.
  induction d as [|[k0 w] d IH]; simpl; [discriminate|].
  destruct (String.eqb_spec k0 k) as [->|Hne].
  - intros [= ->]. now left.
  - intros H. right. auto.
Qed.

Lemma distinct_NoDup (l : list string) : distinct l = true <-> NoDup l.
Proof.
  induction l as [|x l IH]; simpl.
  - split; [constructor|reflexivity].
  - rewrite andb_true_iff, negb_true_iff, IH. split.
    + intros [Hx Hl]. constructor; [|exact Hl].
      intros Hin. assert (existsb (String.eqb x) l = true); [|congruence].
      apply existsb_exists. exists x. split; [exact Hin|apply String.eqb_refl].
    + intros H. inversion H as [|? ? Hx Hl]; subst. split; [|exact Hl].
      destruct (existsb (String.eqb x) l) eqn:E; [|reflexivity].
      apply existsb_exists in E. destruct E as (y & Hy & Heq).
      apply String.eqb_eq in Heq. now subst.
Qed.

Lemma uniqueKeys_Map (d : mapping) :
  uniqueKeys (Map d) = true <->
  NoDup (keys d) /\ forall k v, In (k, v) d -> uniqueKeys v = true.
Proof.
  simpl. rewrite andb_true_iff, distinct_NoDup, forallb_forall. split.
  - intros [Hnd Hall]. split; [exact Hnd|].
    intros k v Hin. exact (Hall (k, v) Hin).
  - intros [Hnd Hall]. split; [exact Hnd|].
    intros [k v] Hin. exact (Hall k v Hin).
Qed.

Lemma uniqueKeys_Seq (l : list value) :
  uniqueKeys (Seq l) = true <-> forall v, In v l -> uniqueKeys v = true.
Proof. simpl. apply forallb_forall. Qed.

Lemma uniqueKeys_store (d : mapping) (k : string) (v : value) :
  uniqueKeys (Map d) = true -> uniqueKeys v = true ->
  uniqueKeys (Map (store d k v)) = true.
Proof.
  rewrite !uniqueKeys_Map. intros [Hnd Hall] Hv. split.
  - rewrite keys_store. destruct (lookup d k) eqn:Hlk; [exact Hnd|].
    apply lookup_None_iff in Hlk.
    apply NoDup_rev in Hnd. rewrite <- (rev_involutive (keys d ++ [k])).
    apply NoDup_rev. rewrite rev_app_distr. simpl.
    constructor; [|exact Hnd]. now rewrite <- in_rev.
  - intros k' v' Hin. apply In_store in Hin.
    destruct Hin as [[-> ->]|Hin]; [exact Hv|eauto].
Qed.



(** ** Merging into a destination without the keys of the source *)

Lemma merge_disjoint_value m (v : value) :
  forall src, v = Map src -> uniqueKeys v = true ->
  forall dst ctxpath,
    (forall k, In k (keys src) -> lookup dst k = None) ->
    mergeMapping m dst src ctxpath = Ok (dst ++ src).
Proof.
  induction v as [elems _|entries IH|s] using value_induction;
    intros src E; try discriminate E.
  injection E as <-. intros Hu.
  apply uniqueKeys_Map in Hu. destruct Hu as [Hnd Hall].
  induction entries as [|[key sv] rest IHrest]; intros dst ctxpath Hdis.
  - now rewrite app_nil_r.
  - inversion IH as [|? ? IHsv IHtl]; subst. simpl in IHsv.
    inversion Hnd as [|? ? Hnotin Hnd']; subst.
    assert (Hlk : lookup dst key = None) by (apply Hdis; now left).
    assert (Hstep : mergeStep m dst ctxpath key sv = Ok (dst ++ [(key, sv)])).
    { destruct sv as [svl|sm|s].
      - now rewrite mergeStep_Seq, Hlk, store_absent.
      - rewrite mergeStep_Map, Hlk.
        rewrite (IHsv sm eq_refl) by
          (try (apply (Hall key); now left); intros; reflexivity).
        simpl. now rewrite store_absent.
      - now rewrite mergeStep_Scalar, Hlk, store_absent. }
    rewrite mergeMapping_cons, Hstep. cbn [bind].
    rewrite IHrest; [now rewrite <- app_assoc|exact IHtl|exact Hnd'| |].
    + intros k v Hin. apply (Hall k v). now right.
    + intros k Hin. rewrite lookup_app, (Hdis k) by now right.
      simpl. destruct (String.eqb_spec key k) as [->|]; [|reflexivity].
      now destruct Hnotin.
Qed.

(** X8: merging a document into a destination that holds none of its
    keys never fails, whatever the policy, and adds the entries of the
    document as they are; merging into the empty mapping returns the
    document. *)
Theorem merge_disjoint_is_union :
  forall m dst src ctxpath,
    uniqueKeys (Map src) = true ->
    (forall k, In k (keys src) -> lookup dst k = None) ->
    mergeMapping m dst src ctxpath = Ok (dst ++ src) /\
    mergeMapping m [] src ctxpath = Ok src.
Proof.
  intros m dst src ctxpath Hu Hdis. split.
  - now apply (merge_disjoint_value m (Map src)).
  - now apply (merge_disjoint_value m (Map src) src eq_refl Hu []).
Qed.

(** X8 on [doc_nested] and [doc_other]. *)
Lemma merge_disjoint_is_union_witness :
  mergeMapping pol_default doc_nested doc_other "$"
    = Ok (doc_nested ++ doc_other) /\
  mergeMapping pol_default [] doc_other "$" = Ok doc_other.
Proof.
  apply merge_disjoint_is_union.
  - reflexivity.
  - intros k [<-|[<-|[]]]; reflexivity.
Defined.

(** ** The result is a map again *)

Lemma uniqueKeys_lookup d k v :
  uniqueKeys (Map d) = true -> lookup d k = Some v -> uniqueKeys v = true.
Proof.
  intros Hu Hlk. apply uniqueKeys_Map in Hu.
  apply lookup_Some_In in Hlk. exact (proj2 Hu k v Hlk).
Qed.

Lemma merge_uniqueKeys_value m (v : value) :
  forall src, v = Map src ->
  (forall k sv, In (k, sv) src -> uniqueKeys sv = true) ->
  forall dst ctxpath dst',
    uniqueKeys (Map dst) = true ->
    mergeMapping m dst src ctxpath = Ok dst' ->
    uniqueKeys (Map dst') = true.
Proof.
  induction v as [elems _|entries IH|s] using value_induction;
    intros src E; try discriminate E.
  injection E as <-. intros Hall.
  induction entries as [|[key sv] rest IHrest]; intros dst ctxpath dst' Hd H.
  - now injection H as <-.
  - inversion IH as [|? ? IHsv IHtl]; subst. simpl in IHsv.
    rewrite mergeMapping_cons in H.
    destruct (mergeStep m dst ctxpath key sv) as [d1|] eqn:Hstep;
      [|discriminate]. cbn [bind] in H.
    assert (Hsv : uniqueKeys sv = true) by (apply (Hall key); now left).
    apply (IHrest IHtl) with (dst := d1) (ctxpath := ctxpath);
      [intros k v Hin; apply (Hall k v); now right| |exact H].
    destruct sv as [svl|sm|s].
    + rewrite mergeStep_Seq in Hstep.
      destruct (lookup dst key) as [[dvv|d|s]|] eqn:Hlk; try discriminate;
        injection Hstep as <-; apply uniqueKeys_store; auto.
      destruct (isOverwrite m ctxpath); [exact Hsv|].
      pose proof (uniqueKeys_lookup _ _ _ Hd Hlk) as Hdv.
      rewrite uniqueKeys_Seq in *. intros x Hx.
      apply in_app_or in Hx. destruct Hx; auto.
    + rewrite mergeStep_Map in Hstep.
      apply uniqueKeys_Map in Hsv.
      destruct (lookup dst key) as [[dvv|d|s]|] eqn:Hlk; try discriminate.
      * destruct (mergeMapping m d sm _) as [d'|] eqn:Hrec; [|discriminate].
        injection Hstep as <-. apply uniqueKeys_store; [exact Hd|].
        eapply (IHsv sm eq_refl (proj2 Hsv) d); [|exact Hrec].
        exact (uniqueKeys_lookup _ _ _ Hd Hlk).
      * destruct (mergeMapping m [] sm _) as [d'|] eqn:Hrec; [|discriminate].
        injection Hstep as <-. apply uniqueKeys_store; [exact Hd|].
        eapply (IHsv sm eq_refl (proj2 Hsv) []); [reflexivity|exact Hrec].
    + rewrite mergeStep_Scalar in Hstep.
      destruct (lookup dst key) as [dv|].
      * destruct (deepEqual s dv); [now injection Hstep as <-|].
        destruct (isOverwrite m ctxpath); [|discriminate].
        injection Hstep as <-. now apply uniqueKeys_store.
      * injection Hstep as <-. now apply uniqueKeys_store.
Qed.

(** X9: the merge keeps the documents maps: when every mapping of the
    destination and of the source, at any depth, has each key once, so has
    every mapping of the result. *)
Theorem merge_keeps_keys_unique :
  forall m dst src ctxpath dst',
    uniqueKeys (Map dst) = true ->
    uniqueKeys (Map src) = true ->
    mergeMapping m dst src ctxpath = Ok dst' ->
    uniqueKeys (Map dst') = true.
Proof.
  intros m dst src ctxpath dst' Hd Hs H.
  apply uniqueKeys_Map in Hs.
  exact (merge_uniqueKeys_value m (Map src) src eq_refl (proj2 Hs)
           dst ctxpath dst' Hd H).
Qed.

(** X9 on [doc_nested] merged with [doc_other]. *)
Lemma merge_keeps_keys_unique_witness :
  uniqueKeys (Map (doc_nested ++ doc_other)) = true.
Proof.
  exact (merge_keeps_keys_unique pol_default doc_nested doc_other "$"
           (doc_nested ++ doc_other) eq_refl eq_refl eq_refl).
Defined.

(** ** The keys of the result *)

Lemma mergeStep_result m dst ctxpath key sv d1 :
  mergeStep m dst ctxpath key sv = Ok d1 ->
  (exists v, d1 = store dst key v) \/ (d1 = dst /\ lookup dst key <> None).
Proof.
  intros H. destruct sv as [svl|sm|s].
  - rewrite mergeStep_Seq in H.
    destruct (lookup dst key) as [[dvv|d|s]|]; try discriminate;
      injection H as <-; left; eauto.
  - rewrite mergeStep_Map in H.
    destruct (lookup dst key) as [[dvv|d|s]|]; try discriminate.
    + destruct (mergeMapping m d sm _); [|discriminate].
      injection H as <-. left; eauto.
    + destruct (mergeMapping m [] sm _); [|discriminate].
      injection H as <-. left; eauto.
  - rewrite mergeStep_Scalar in H.
    destruct (lookup dst key) as [dv|] eqn:Hlk.
    + destruct (deepEqual s dv).
      * injection H as <-. right. split; [reflexivity|discriminate].
      * destruct (isOverwrite m ctxpath); [|discriminate].
        injection H as <-. left; eauto.
    + injection H as <-. left; eauto.
Qed.

Lemma mergeStep_keys m dst ctxpath key sv d1 :
  mergeStep m dst ctxpath key sv = Ok d1 ->
  keys d1 = match lookup dst key with
            | Some _ => keys dst
            | None => keys dst ++ [key]
            end.
Proof.
  intros H. destruct (mergeStep_result _ _ _ _ _ _ H) as [[v ->]|[-> Hlk]].
  - apply keys_store.
  - now destruct (lookup dst key).
Qed.

(** X10: a merge that returns removes no key of the destination and
    does not reorder them; the keys of the result are those of the
    destination followed by the new keys of the source, so a key is in the
    result exactly when it is in the destination or in the source. *)
Theorem merge_keys_union :
  forall m dst src ctxpath dst',
    mergeMapping m dst src ctxpath = Ok dst' ->
    (exists added, keys dst' = keys dst ++ added) /\
    (forall k, In k (keys dst') <-> In k (keys dst) \/ In k (keys src)).
Proof.
  intros m dst src ctxpath. revert dst.
  induction src as [|[key sv] rest IH]; intros dst dst' H.
  - injection H as <-. split; [exists []; now rewrite app_nil_r|].
    intros k. simpl. tauto.
  - rewrite mergeMapping_cons in H.
    destruct (mergeStep m dst ctxpath key sv) as [d1|] eqn:Hstep;
      [|discriminate]. cbn [bind] in H.
    destruct (IH d1 dst' H) as [[added Hadd] Hin].
    pose proof (mergeStep_keys _ _ _ _ _ _ Hstep) as Hk.
    split.
    + rewrite Hadd, Hk. destruct (lookup dst key);
        [now exists added|exists (key :: added); now rewrite <- app_assoc].
    + intros k. rewrite Hin, Hk. simpl.
      destruct (lookup dst key) as [w|] eqn:Hlk.
      * apply lookup_Some_In in Hlk. apply (in_map fst) in Hlk. simpl in Hlk.
        fold (keys dst) in Hlk. split; [tauto|].
        intros [H1|[<-|H1]]; auto.
      * rewrite in_app_iff. simpl. tauto.
Qed.

(** X10 on [doc_nested] and [doc_other]. *)
Lemma merge_keys_union_witness :
  (exists added, keys (doc_nested ++ doc_other) = keys doc_nested ++ added) /\
  (forall k, In k (keys (doc_nested ++ doc_other)) <->
             In k (keys doc_nested) \/ In k (keys doc_other)).
Proof.
  exact (merge_keys_union pol_default doc_nested doc_other "$"
           (doc_nested ++ doc_other) eq_refl).
Defined.

(** ** The errors of the merge *)

Lemma mergeErrorAt_below m ctxpath key e :
  mergeErrorAt m (ctxpath ++ "." ++ key) e -> mergeErrorAt m ctxpath e.
Proof.
  intros (below & k & H). exists ("." ++ key ++ below)%string, k.
  cbn zeta in *.
  replace (ctxpath ++ "." ++ key ++ below)%string
    with ((ctxpath ++ "." ++ key) ++ below)%string; [exact H|].
  now rewrite !append_assoc.
Qed.

Lemma append_empty_r (s : string) : (s ++ "")%string = s.
Proof. induction s as [|c s IH]; simpl; [reflexivity|now rewrite IH]. Qed.

Lemma mergeErrorAt_value m (v : value) :
  forall src, v = Map src ->
  forall dst ctxpath e,
    mergeMapping m dst src ctxpath = Err e -> mergeErrorAt m ctxpath e.
Proof.
  induction v as [elems _|entries IH|s] using value_induction;
    intros src E; try discriminate E.
  injection E as <-.
  induction entries as [|[key sv] rest IHrest]; intros dst ctxpath e H.
  - discriminate H.
  - inversion IH as [|? ? IHsv IHtl]; subst. simpl in IHsv.
    rewrite mergeMapping_cons in H.
    destruct (mergeStep m dst ctxpath key sv) as [d1|e1] eqn:Hstep;
      cbn [bind] in H; [exact (IHrest IHtl d1 ctxpath e H)|].
    injection H as <-.
    assert (Hhere : forall srcT dstT,
               (srcT = TSlice \/ srcT = TMap) -> srcT <> dstT ->
               mergeErrorAt m ctxpath
                 (ErrMismatch (ctxpath ++ "." ++ key) srcT dstT)).
    { intros srcT dstT Hs Hne. exists ""%string, key. cbn zeta.
      rewrite append_empty_r. left. exists srcT, dstT. auto. }
    destruct sv as [svl|sm|s].
    + rewrite mergeStep_Seq in Hstep.
      destruct (lookup dst key) as [[dvv|d|[x|z|b|]]|]; try discriminate;
        injection Hstep as <-; apply Hhere; auto; discriminate.
    + rewrite mergeStep_Map in Hstep.
      destruct (lookup dst key) as [[dvv|d|[x|z|b|]]|];
        try (injection Hstep as <-; apply Hhere; auto; discriminate).
      * destruct (mergeMapping m d sm _) as [d'|e'] eqn:Hrec; [discriminate|].
        injection Hstep as <-. apply mergeErrorAt_below with key.
        exact (IHsv sm eq_refl _ _ _ Hrec).
      * destruct (mergeMapping m [] sm _) as [d'|e'] eqn:Hrec; [discriminate|].
        injection Hstep as <-. apply mergeErrorAt_below with key.
        exact (IHsv sm eq_refl _ _ _ Hrec).
    + rewrite mergeStep_Scalar in Hstep.
      destruct (lookup dst key) as [dv|]; [|discriminate].
      destruct (deepEqual s dv); [discriminate|].
      destruct (isOverwrite m ctxpath) eqn:How; [discriminate|].
      injection Hstep as <-. exists ""%string, key. cbn zeta.
      rewrite append_empty_r. right. auto.
Qed.

(** X11: every error of [mergeMapping] is a mismatch error or a
    duplicate-key error, and it names the path of a key in a mapping at or
    below the context path of the call.  A mismatch error reports a source
    that is a sequence or a mapping and a destination of another kind; a
    duplicate-key error only arises where [isOverwrite] answers false for
    the mapping that holds the key, so a policy that answers true
    everywhere never gives one. *)
Theorem merge_errors_classified :
  forall m dst src ctxpath e,
    mergeMapping m dst src ctxpath = Err e ->
    mergeErrorAt m ctxpath e /\
    ((forall p, isOverwrite m p = true) ->
     exists cpath srcT dstT, e = ErrMismatch cpath srcT dstT).
Proof.
  intros m dst src ctxpath e H.
  pose proof (mergeErrorAt_value m (Map src) src eq_refl dst ctxpath e H) as He.
  split; [exact He|].
  intros Hall. destruct He as (below & key & [(s & d & -> & _)|[_ Hf]]).
  - eauto.
  - rewrite Hall in Hf. discriminate Hf.
Qed.

(** X11 on [doc_nested] and a second value for [$.a.b]. *)
Lemma merge_errors_classified_witness :
  mergeErrorAt pol_default "$" (ErrDuplicateKeys "$.a.b") /\
  ((forall p, isOverwrite pol_default p = true) ->
   exists cpath srcT dstT,
     ErrDuplicateKeys "$.a.b" = ErrMismatch cpath srcT dstT).
Proof.
  exact (merge_errors_classified pol_default doc_nested doc_nested_conflict
           "$" (ErrDuplicateKeys "$.a.b") eq_refl).
Defined.

(** ** Merging a document that the destination already holds *)

Lemma merge_contained_value m (v : value) :
  forall src, v = Map src ->
  uniqueKeys v = true -> seqFree v = true -> selfEqualLeaves v = true ->
  forall dst ctxpath,
    (forall k sv, In (k, sv) src -> lookup dst k = Some sv) ->
    mergeMapping m dst src ctxpath = Ok dst.
Proof.
  induction v as [elems _|entries IH|s] using value_induction;
    intros src E; try discriminate E.
  injection E as <-. intros Hu Hfree Hself dst ctxpath.
  apply uniqueKeys_Map in Hu. destruct Hu as [_ Hall].
  simpl in Hfree. rewrite forallb_forall in Hfree.
  simpl in Hself. rewrite forallb_forall in Hself.
  induction entries as [|[key sv] rest IHrest]; intros Hin; [reflexivity|].
  inversion IH as [|? ? IHsv IHtl]; subst. simpl in IHsv.
  assert (Hlk : lookup dst key = Some sv) by (apply Hin; now left).
  assert (Hstep : mergeStep m dst ctxpath key sv = Ok dst).
  { pose proof (Hfree (key, sv) (or_introl eq_refl)) as Hf. simpl in Hf.
    pose proof (Hself (key, sv) (or_introl eq_refl)) as Hs.
    cbn [snd] in Hs.
    pose proof (Hall key sv (or_introl eq_refl)) as Hu.
    destruct sv as [svl|sm|s]; [discriminate Hf| |].
    - rewrite mergeStep_Map, Hlk.
      rewrite (IHsv sm eq_refl Hu Hf Hs sm).
      + simpl. now rewrite store_same.
      + intros k v Hkv. apply lookup_In; [|exact Hkv].
        apply uniqueKeys_Map in Hu. exact (proj1 Hu).
    - rewrite mergeStep_Scalar, Hlk.
      cbn [selfEqualLeaves] in Hs. now rewrite Hs. }
  rewrite mergeMapping_cons, Hstep. cbn [bind].
  apply IHrest; [exact IHtl| | | |].
  - intros k v Hkv. apply (Hall k v). now right.
  - intros kv Hkv. apply Hfree. now right.
  - intros kv Hkv. apply Hself. now right.
  - intros k v Hkv. apply Hin. now right.
Qed.

(** X12: for a document without sequences whose leaves are each deeply
    equal to themselves (in the program: no NaN among them), merging it
    into a destination that already holds each of its top-level entries
    changes nothing and is no error, whatever the policy; in particular
    such a document merged with itself gives itself. *)
Theorem merge_idempotent_without_sequences :
  forall m d ctxpath,
    uniqueKeys (Map d) = true ->
    seqFree (Map d) = true ->
    selfEqualLeaves (Map d) = true ->
    mergeMapping m d d ctxpath = Ok d /\
    forall dst,
      (forall k sv, In (k, sv) d -> lookup dst k = Some sv) ->
      mergeMapping m dst d ctxpath = Ok dst.
Proof.
  intros m d ctxpath Hu Hf Hs.
  assert (H : forall dst,
             (forall k sv, In (k, sv) d -> lookup dst k = Some sv) ->
             mergeMapping m dst d ctxpath = Ok dst).
  { intros dst. now apply (merge_contained_value m (Map d)). }
  split; [|exact H].
  apply H. intros k sv Hin. apply lookup_In; [|exact Hin].
  apply uniqueKeys_Map in Hu. exact (proj1 Hu).
Qed.

(** X12 on [doc_nested]. *)
Lemma merge_idempotent_without_sequences_witness :
  mergeMapping pol_default doc_nested doc_nested "$" = Ok doc_nested /\
  forall dst,
    (forall k sv, In (k, sv) doc_nested -> lookup dst k = Some sv) ->
    mergeMapping pol_default dst doc_nested "$" = Ok dst.
Proof.
  exact (merge_idempotent_without_sequences pol_default doc_nested "$"
           eq_refl eq_refl eq_refl).
Defined.

(** ** Conflicting values *)

(** X13: a scalar of the source that differs from the value the
    destination holds at its key makes the merge of the mapping fail when
    [isOverwrite] answers false for the mapping: no other key of the source
    can make the merge return.  If the keys before it merge, the error is
    the duplicate-key error for the path of the key. *)
Theorem differing_scalar_fails :
  forall m dst src ctxpath key s dv,
    NoDup (keys src) ->
    In (key, Scalar s) src ->
    lookup dst key = Some dv ->
    deepEqual s dv = false ->
    isOverwrite m ctxpath = false ->
    (exists e, mergeMapping m dst src ctxpath = Err e) /\
    (forall pre post dst1,
        src = pre ++ (key, Scalar s) :: post ->
        mergeMapping m dst pre ctxpath = Ok dst1 ->
        mergeMapping m dst src ctxpath
          = Err (ErrDuplicateKeys (ctxpath ++ "." ++ key))).
Proof.
  intros m dst src ctxpath key s dv Hnd Hin Hlk Hne How.
  assert (Hpart : forall pre post dst1,
        src = pre ++ (key, Scalar s) :: post ->
        mergeMapping m dst pre ctxpath = Ok dst1 ->
        mergeMapping m dst src ctxpath
          = Err (ErrDuplicateKeys (ctxpath ++ "." ++ key))).
  { intros pre post dst1 -> Hpre.
    rewrite mergeMapping_app, Hpre. cbn [bind].
    rewrite mergeMapping_cons, mergeStep_Scalar.
    rewrite (mergeMapping_lookup_other _ _ _ _ _ key Hpre), Hlk, Hne, How.
    - reflexivity.
    - unfold keys in Hnd. rewrite map_app in Hnd. simpl in Hnd.
      apply NoDup_remove_2 in Hnd. intros Hk. apply Hnd, in_or_app. now left. }
  split; [|exact Hpart].
  destruct (in_split _ _ Hin) as (pre & post & Hsplit).
  destruct (mergeMapping m dst pre ctxpath) as [dst1|e] eqn:Hpre.
  - eexists. exact (Hpart pre post dst1 Hsplit Hpre).
  - exists e. rewrite Hsplit, mergeMapping_app, Hpre. reflexivity.
Qed.

(** X13 on [{a: 1}] and [{a: x}] under the default policy. *)
Lemma differing_scalar_fails_witness :
  (exists e, mergeMapping pol_default doc_a_1 doc_a_x "$" = Err e) /\
  (forall pre post dst1,
      doc_a_x = pre ++ ("a", Scalar (Str "x")) :: post ->
      mergeMapping pol_default doc_a_1 pre "$" = Ok dst1 ->
      mergeMapping pol_default doc_a_1 doc_a_x "$"
        = Err (ErrDuplicateKeys "$.a")).
Proof.
  apply (differing_scalar_fails pol_default doc_a_1 doc_a_x "$" "a"
           (Str "x") (Scalar (Int 1))).
  - repeat constructor. simpl. tauto.
  - simpl. auto.
  - reflexivity.
  - reflexivity.
  - reflexivity.
Defined.



(* ================================================================== *)
(** * Further properties of the path resolver *)

Lemma sameShape_Seq xs ys :
  sameShape (Seq xs) (Seq ys) = true <->
  Forall2 (fun x y => sameShape x y = true) xs ys.
Proof.
  simpl. revert ys. induction xs as [|x xs IH]; intros [|y ys].
  - split; [constructor|reflexivity].
  - split; [discriminate|intros H; inversion H].
  - split; [discriminate|intros H; inversion H].
  - rewrite andb_true_iff, IH. split.
    + intros [H1 H2]. now constructor.
    + intros H. inversion H; subst. auto.
Qed.

Lemma sameShape_Map xs ys :
  sameShape (Map xs) (Map ys) = true <->
  Forall2 (fun a b => fst a = fst b /\ sameShape (snd a) (snd b) = true) xs ys.
Proof.
  simpl. revert ys. induction xs as [|[k x] xs IH]; intros [|[k' y] ys].
  - split; [constructor|reflexivity].
  - split; [discriminate|intros H; inversion H].
  - split; [discriminate|intros H; inversion H].
  - rewrite !andb_true_iff, IH, String.eqb_eq. split.
    + intros [[H1 H2] H3]. constructor; auto.
    + intros H. inversion H as [|? ? ? ? [H1 H2] H3]; subst. auto.
Qed.

Lemma sameShape_scalar_refl (s : scalar) : sameShape (Scalar s) (Scalar s) = true.
Proof.
  destruct s; simpl; [reflexivity|apply Z.eqb_refl|apply Bool.eqb_reflx|reflexivity].
Qed.

Section ResolveMore.

Variable Join : string -> string -> string.
Variable m : mergePolicy.

Lemma resolve_sameShape (v : value) :
  forall fileRoot ctxpath,
    sameShape v (afterCall Join m v fileRoot ctxpath) = true /\
    (reportsRewrite Join m v fileRoot ctxpath = true ->
     sameShape v (returnedValue Join m v fileRoot ctxpath) = true).
Proof.
  induction v as [elems IH|entries IH|s] using value_induction;
    intros fileRoot ctxpath.
  - unfold afterCall, reportsRewrite, returnedValue.
    rewrite resolvePathsValue_Seq. cbn [fst snd].
    rewrite Forall_forall in IH. split.
    + apply sameShape_Seq. induction elems as [|x elems IHl]; simpl;
        constructor.
      * apply IH. now left.
      * apply IHl. intros y Hy. apply IH. now right.
    + intros Hall. rewrite (forallb_filter_all _ _ Hall).
      rewrite forallb_forall in Hall.
      apply sameShape_Seq. induction elems as [|x elems IHl]; simpl;
        constructor.
      * apply IH; [now left|]. apply Hall. now left.
      * apply IHl.
        -- intros y Hy. apply IH. now right.
        -- intros y Hy. apply Hall. now right.
  - split; [|discriminate].
    unfold afterCall. rewrite resolvePathsValue_Map. cbn [fst].
    apply sameShape_Map.
    induction IH as [|[k v] entries Hv _ IHentries].
    + constructor.
    + rewrite resolvePaths_cons. constructor; [|exact IHentries].
      split; [reflexivity|]. cbn [fst snd] in *. unfold resolvedSlot.
      specialize (Hv fileRoot (ctxpath ++ "." ++ k)%string).
      unfold afterCall, reportsRewrite, returnedValue in Hv.
      destruct (resolvePathsValue Join m v fileRoot (ctxpath ++ "." ++ k))
        as [v' [vv ok]]. simpl in Hv.
      destruct ok; [now apply Hv|apply Hv].
  - unfold afterCall, reportsRewrite, returnedValue.
    destruct s as [x|z|b|]; simpl;
      try (split; [first [apply Z.eqb_refl|apply Bool.eqb_reflx|reflexivity]
                  |discriminate]).
    destruct (resolvePath m ctxpath); simpl; split;
      try reflexivity; discriminate.
Qed.

Lemma sameShape_keys xs ys :
  sameShape (Map xs) (Map ys) = true -> keys xs = keys ys.
Proof.
  rewrite sameShape_Map. induction 1 as [|a b xs ys [Hk _] _ IH]; simpl;
    [reflexivity|]. now rewrite Hk, IH.
Qed.

(** X16: resolution keeps the shape of a document: at every depth the
    same keys in the same order, the same kinds, sequences of the same
    length, and leaves of the same type, numbers, booleans and nulls with
    the same value; only the contents of strings change. *)
Theorem resolvePaths_keeps_shape :
  forall object fileRoot ctxpath,
    sameShape (Map object) (Map (resolvePaths Join m object fileRoot ctxpath))
      = true /\
    keys (resolvePaths Join m object fileRoot ctxpath) = keys object.
Proof.
  intros object fileRoot ctxpath.
  pose proof (proj1 (resolve_sameShape (Map object) fileRoot ctxpath)) as H.
  unfold afterCall in H. rewrite resolvePathsValue_Map in H. cbn [fst] in H.
  split; [exact H|]. symmetry. now apply sameShape_keys.
Qed.

Lemma resolve_nothing (v : value) :
  (forall p, resolvePath m p = false) ->
  forall fileRoot ctxpath,
    afterCall Join m v fileRoot ctxpath = v /\
    (reportsRewrite Join m v fileRoot ctxpath = true ->
     returnedValue Join m v fileRoot ctxpath = v).
Proof.
  intros Hno.
  induction v as [elems IH|entries IH|s] using value_induction;
    intros fileRoot ctxpath.
  - unfold afterCall, reportsRewrite, returnedValue.
    rewrite resolvePathsValue_Seq. cbn [fst snd].
    rewrite Forall_forall in IH. split.
    + f_equal. rewrite <- (map_id elems) at 2. apply map_ext_in.
      intros x Hx. apply IH, Hx.
    + intros Hall. rewrite (forallb_filter_all _ _ Hall).
      rewrite forallb_forall in Hall.
      f_equal. rewrite <- (map_id elems) at 2. apply map_ext_in.
      intros x Hx. apply IH; [exact Hx|]. now apply Hall.
  - split; [|discriminate].
    unfold afterCall. rewrite resolvePathsValue_Map. cbn [fst]. f_equal.
    induction IH as [|[k v] entries Hv _ IHentries]; [reflexivity|].
    rewrite resolvePaths_cons, IHentries. f_equal. f_equal.
    simpl in Hv. unfold resolvedSlot.
    specialize (Hv fileRoot (ctxpath ++ "." ++ k)%string).
    unfold afterCall, reportsRewrite, returnedValue in Hv.
    destruct (resolvePathsValue Join m v fileRoot (ctxpath ++ "." ++ k))
      as [v' [vv ok]]. simpl in Hv.
    destruct ok; [now apply Hv|apply Hv].
  - unfold afterCall, reportsRewrite, returnedValue.
    destruct s as [x|z|b|]; simpl; try (split; [reflexivity|discriminate]).
    rewrite Hno. simpl. split; [reflexivity|discriminate].
Qed.

(** X17: when no pattern for [ResolvePath] matches anything, and so when
    none is configured, the resolution returns the document as it was. *)
Theorem resolvePaths_without_match :
  (forall p, resolvePath m p = false) ->
  forall object fileRoot ctxpath,
    resolvePaths Join m object fileRoot ctxpath = object.
Proof.
  intros Hno object fileRoot ctxpath.
  pose proof (proj1 (resolve_nothing (Map object) Hno fileRoot ctxpath)) as H.
  unfold afterCall in H. rewrite resolvePathsValue_Map in H. cbn [fst] in H.
  now injection H.
Qed.

(** X18: a key that holds a sequence of strings: if the path of the key
    is to be resolved, every string is joined with the file root, in
    order; if it is not, the sequence is left as it is. *)
Theorem string_sequence_resolved :
  forall object fileRoot ctxpath k ss,
    lookup object k = Some (Seq (map (fun s => Scalar (Str s)) ss)) ->
    (resolvePath m (ctxpath ++ "." ++ k) = true ->
     lookup (resolvePaths Join m object fileRoot ctxpath) k
       = Some (Seq (map (fun s => Scalar (Str (Join fileRoot s))) ss))) /\
    (resolvePath m (ctxpath ++ "." ++ k) = false ->
     lookup (resolvePaths Join m object fileRoot ctxpath) k
       = Some (Seq (map (fun s => Scalar (Str s)) ss))).
Proof.
  intros object fileRoot ctxpath k ss Hlk.
  rewrite lookup_resolvePaths, Hlk. unfold resolvedSlot.
  rewrite resolvePathsValue_Seq.
  set (cpath := (ctxpath ++ "." ++ k)%string).
  split; intros Hres.
  - assert (Hall : forallb (fun vi => reportsRewrite Join m vi fileRoot cpath)
                     (map (fun s => Scalar (Str s)) ss) = true).
    { apply forallb_forall. intros x Hx. apply in_map_iff in Hx.
      destruct Hx as (s & <- & _). unfold reportsRewrite. simpl.
      now rewrite Hres. }
    rewrite Hall, (forallb_filter_all _ _ Hall), map_map. f_equal. f_equal.
    apply map_ext. intros s. unfold returnedValue. simpl. now rewrite Hres.
  - assert (Hmap : map (fun vi => afterCall Join m vi fileRoot cpath)
                     (map (fun s => Scalar (Str s)) ss)
                   = map (fun s => Scalar (Str s)) ss).
    { rewrite map_map. apply map_ext. intros s. unfold afterCall. simpl.
      now rewrite Hres. }
    destruct (forallb _ (map (fun s => Scalar (Str s)) ss)) eqn:Hall.
    + destruct ss as [|s ss]; [reflexivity|].
      simpl in Hall. unfold reportsRewrite in Hall at 1. simpl in Hall.
      rewrite Hres in Hall. discriminate Hall.
    + now rewrite Hmap.
Qed.

End ResolveMore.

(** X16 on [doc_files] resolved against [host-dir]. *)
Lemma resolvePaths_keeps_shape_witness :
  sameShape (Map doc_files)
    (Map (resolvePaths joinClean pol_resolve_local doc_files "host-dir" "$"))
    = true /\
  keys (resolvePaths joinClean pol_resolve_local doc_files "host-dir" "$")
    = keys doc_files.
Proof.
  exact (resolvePaths_keeps_shape joinClean pol_resolve_local doc_files
           "host-dir" "$").
Defined.

(** X17 on [doc_files] under the default policy. *)
Lemma resolvePaths_without_match_witness :
  resolvePaths joinClean pol_default doc_files "host-dir" "$" = doc_files.
Proof.
  exact (resolvePaths_without_match joinClean pol_default
           (fun p => eq_refl) doc_files "host-dir" "$").
Defined.

(** X18 on [{local: [a.ign, b.ign]}] resolved against [host-dir]. *)
Lemma string_sequence_resolved_witness :
  lookup (resolvePaths joinClean pol_resolve_local doc_locals "host-dir" "$")
    "local"
    = Some (Seq [Scalar (Str "host-dir/a.ign"); Scalar (Str "host-dir/b.ign")]).
Proof.
  exact (proj1 (string_sequence_resolved joinClean pol_resolve_local
                  doc_locals "host-dir" "$" "local" ["a.ign"; "b.ign"]
                  eq_refl) eq_refl).
Defined.

(* ================================================================== *)
(** * Further properties of the merge of files *)

Lemma sameShape_uniqueKeys (a : value) :
  forall b, sameShape a b = true -> uniqueKeys a = uniqueKeys b.
Proof.
  induction a as [elems IH|entries IH|s] using value_induction; intros b Hab.
  - destruct b as [ys|ys|t]; try discriminate Hab.
    apply sameShape_Seq in Hab. simpl.
    induction Hab as [|x y xs ys Hxy _ IHl]; [reflexivity|].
    inversion IH as [|? ? Hx Htl]; subst. simpl.
    now rewrite (Hx y Hxy), (IHl Htl).
  - destruct b as [ys|ys|t]; try discriminate Hab.
    pose proof (sameShape_keys _ _ Hab) as Hk. unfold keys in Hk.
    apply sameShape_Map in Hab. simpl. rewrite Hk. f_equal.
    clear Hk. induction Hab as [|x y xs ys [_ Hxy] _ IHl]; [reflexivity|].
    inversion IH as [|? ? Hx Htl]; subst. simpl.
    now rewrite (Hx (snd y) Hxy), (IHl Htl).
  - destruct b as [ys|ys|t]; try (destruct s; discriminate Hab). reflexivity.
Qed.

Section FilesMore.

Variable Join : string -> string -> string.
Variable Dir : string -> string.
Variable ReadFile : string -> result string.
Variable Unmarshal : string -> result (option mapping).

Lemma mergeFile_invariants m f m' :
  mergeFile Join Dir ReadFile Unmarshal m f = Ok m' ->
  merge_policy m' = merge_policy m /\ filesDir m' = filesDir m /\
  (root m <> None -> root m' <> None) /\
  ((forall data config, Unmarshal data = Ok (Some config) ->
                        uniqueKeys (Map config) = true) ->
   rootIsMap m -> rootIsMap m').
Proof.
  unfold mergeFile, mergeBytes, rootIsMap.
  destruct (ReadFile (Join (filesDir m) f)) as [d|]; [|discriminate].
  destruct (Unmarshal d) as [config|] eqn:Hu; [|discriminate].
  set (config' := if negb (String.eqb (Dir f) "")
                  then option_map
                         (fun object =>
                            resolvePaths Join (merge_policy m) object (Dir f) "$")
                         config
                  else config).
  assert (Hc : (forall data config, Unmarshal data = Ok (Some config) ->
                                    uniqueKeys (Map config) = true) ->
               uniqueKeys (Map (entriesOf config')) = true).
  { intros Hwf. unfold config'. destruct config as [config|].
    - specialize (Hwf d config Hu).
      destruct (negb (String.eqb (Dir f) "")); [|exact Hwf].
      pose proof (proj1 (resolve_sameShape Join (merge_policy m) (Map config)
                           (Dir f) "$")) as Hs.
      unfold afterCall in Hs. rewrite resolvePathsValue_Map in Hs.
      cbn [fst] in Hs. cbn [option_map entriesOf].
      now rewrite <- (sameShape_uniqueKeys _ _ Hs).
    - now destruct (negb (String.eqb (Dir f) "")). }
  destruct (root m) as [r|].
  - destruct (mergeMapping (merge_policy m) r (entriesOf config') "$")
      as [r'|] eqn:Hm; [|discriminate].
    simpl. intros [= <-]. simpl. repeat split; [discriminate|].
    intros Hwf Hr.
    pose proof (Hc Hwf) as Hc'. apply uniqueKeys_Map in Hc'.
    exact (merge_uniqueKeys_value _ (Map (entriesOf config'))
             (entriesOf config') eq_refl (proj2 Hc') r "$" r' Hr Hm).
  - intros [= <-]. simpl. repeat split; [now intros []|].
    intros Hwf _. specialize (Hc Hwf).
    destruct config' as [c|]; [exact Hc|exact I].
Qed.

(** X15: a run over files that returns keeps the policy and the files
    directory it started with; a root that is not nil stays not nil; if
    the parser gives documents whose mappings have each key once, the root
    stays such a document through resolution and merge.  The first file,
    taken with a nil root, is not merged: it can only fail to be read or
    to be parsed.  A file whose document is null changes nothing, a nil
    root stays nil; a file whose document is a mapping leaves a root that
    is not nil. *)
Theorem files_invariants :
  (forall all m paths m',
      rangePaths Join Dir ReadFile Unmarshal all m paths = Ok m' ->
      merge_policy m' = merge_policy m /\ filesDir m' = filesDir m /\
      (root m <> None -> root m' <> None) /\
      ((forall data config, Unmarshal data = Ok (Some config) ->
                            uniqueKeys (Map config) = true) ->
       rootIsMap m -> rootIsMap m')) /\
  (forall m f e,
      root m = None ->
      mergeFile Join Dir ReadFile Unmarshal m f = Err e ->
      exists x, e = ErrFile f x \/ e = ErrDuringMerge f (ErrReadingYaml x)) /\
  (forall m f d,
      ReadFile (Join (filesDir m) f) = Ok d ->
      Unmarshal d = Ok None ->
      mergeFile Join Dir ReadFile Unmarshal m f = Ok m) /\
  (forall m f d config m',
      ReadFile (Join (filesDir m) f) = Ok d ->
      Unmarshal d = Ok (Some config) ->
      mergeFile Join Dir ReadFile Unmarshal m f = Ok m' ->
      root m' <> None).
Proof.
  repeat apply conj.
  - intros all m paths. revert m.
    induction paths as [|f paths IH]; intros m m' H; simpl in H.
    + injection H as <-. repeat split; auto.
    + destruct (mergeFile Join Dir ReadFile Unmarshal m f) as [m1|] eqn:Hf;
        [|discriminate].
      destruct (mergeFile_invariants _ _ _ Hf) as (Hp1 & Hd1 & Hr1 & Hw1).
      destruct (IH m1 m' H) as (Hp & Hd & Hr & Hw).
      repeat split; [congruence|congruence|auto|auto].
  - intros m f e Hroot. unfold mergeFile, mergeBytes. rewrite Hroot.
    destruct (ReadFile (Join (filesDir m) f)) as [d|x]; [|intros [= <-]; eauto].
    destruct (Unmarshal d) as [config|x]; [discriminate|].
    intros [= <-]. eauto.
  - intros [pol dir r] f d Hr Hu. unfold mergeFile, mergeBytes.
    simpl in *. rewrite Hr, Hu.
    destruct (negb (String.eqb (Dir f) "")); simpl;
      destruct r as [r|]; reflexivity.
  - intros m f d config m' Hr Hu. unfold mergeFile, mergeBytes.
    rewrite Hr, Hu.
    destruct (root m) as [r|].
    + destruct (mergeMapping _ r _ "$"); [|discriminate].
      simpl. intros [= <-]. discriminate.
    + intros [= <-]. simpl.
      destruct (negb (String.eqb (Dir f) "")); discriminate.
Qed.

End FilesMore.

(** X15 on the files null.yaml, one.yaml and two.yaml, taken with a nil
    root: the null document leaves the root nil, the second becomes the
    root, the third is merged. *)
Lemma files_invariants_witness :
  merge_policy (mkMerge pol_default "" (Some [("list", ints [1; 2; 3]%Z)]))
    = merge_policy (mkMerge pol_default "" None) /\
  filesDir (mkMerge pol_default "" (Some [("list", ints [1; 2; 3]%Z)]))
    = filesDir (mkMerge pol_default "" None) /\
  (root (mkMerge pol_default "" None) <> None ->
   root (mkMerge pol_default "" (Some [("list", ints [1; 2; 3]%Z)])) <> None) /\
  ((forall data config, sampleUnmarshal data = Ok (Some config) ->
                        uniqueKeys (Map config) = true) ->
   rootIsMap (mkMerge pol_default "" None) ->
   rootIsMap (mkMerge pol_default "" (Some [("list", ints [1; 2; 3]%Z)]))).
Proof.
  exact (proj1 (files_invariants joinClean sampleDir sampleReadFile
                  sampleUnmarshal)
           ["null.yaml"; "one.yaml"; "two.yaml"] (mkMerge pol_default "" None)
           ["null.yaml"; "one.yaml"; "two.yaml"]
           (mkMerge pol_default "" (Some [("list", ints [1; 2; 3]%Z)]))
           eq_refl).
Defined.
